(** * alembic_utils.replaceable_entity: a shallow embedding

    The module under study diffs a declared batch of replaceable SQL
    entities against a live database and appends create / replace / drop
    operations to an operation list.  The Python code threads three pieces
    of mutable state through every call: the database session (with its
    stack of open transactions), the process-wide comparable cache
    [ReplaceableEntity._CACHE] and the list [upgrade_ops.ops].  They are
    modelled here as one explicit [World] passed through a small
    state-and-exception monad.

    Conventions of the embedding:
    - the server and the concrete entity classes are a parameter, the class
      [Backend]; a statement either changes the catalog or is rejected, and
      the same statement on the same catalog always does the same;
    - [Session.rollback()] rolls back the innermost open (nested)
      transaction, a transaction object used as a context manager releases
      its savepoint on a normal exit and rolls it back on an exception, and
      rolling back a transaction discards whatever is still open inside it;
    - entities are compared structurally where Python uses [in] and [!=];
      past the registration check the registered entities differ in
      identity, so that this is also the comparison of the objects;
    - the module's messages to its logger have no counterpart here. *)

From Stdlib Require Import Ascii.
From stdpp Require Import gmap strings list sorting.

Open Scope string_scope.
Open Scope list_scope.
Open Scope nat_scope.

(** ** Entities *)

(** A constructed [ReplaceableEntity]: the three normalised strings set by
    [__init__], together with the name of the concrete subclass
    ([self.__class__.__name__]). *)
Record Entity := mkEntity {
  kind : string;
  schema : string;
  signature : string;
  definition : string;
}.

#[global] Instance Entity_eq_dec : EqDecision Entity.
Proof. solve_decision. Defined.

(** [ReplaceableEntity.identity]: f"{self.schema}.{self.signature}". *)
Definition identity (self : Entity) : string :=
  schema self +:+ "." +:+ signature self.

(** ** Operations *)

Inductive Op :=
| CreateOp (target : Entity)
| DropOp (target : Entity)
| ReplaceOp (target : Entity)
| RevertOp (target : Entity).

#[global] Instance Op_eq_dec : EqDecision Op.
Proof. solve_decision. Defined.

Definition target (op : Op) : Entity :=
  match op with
  | CreateOp t | DropOp t | ReplaceOp t | RevertOp t => t
  end.

(** ** Exceptions and results *)

Inductive exn :=
| DatabaseError                               (* a statement rejected by the server *)
| TypeError                                   (* tuple(None) *)
| AttributeError                              (* attribute access on None *)
| NotImplementedError
| DuplicateRegistration (msg : string)
| FailedToGenerateComparable (msg : string)
| UnreachableException.

#[global] Instance exn_eq_dec : EqDecision exn.
Proof. solve_decision. Defined.

Inductive Result (A : Type) :=
| Ok (a : A)
| Raise (e : exn).
Arguments Ok {A} a.
Arguments Raise {A} e.

(** Modelled from the spec: [ReversibleOp.reverse], the base-class method in
    alembic_utils/reversible_op.py that [RevertOp] inherits unchanged ("Revert
    is never in an upgrade, so no need to implement reverse").  Section 4.6 of
    the specification makes reversing a Revert illegal; the three overriding
    methods are the ones of [CreateOp], [DropOp] and [ReplaceOp]. *)
Definition reverse (op : Op) : Result Op :=
  match op with
  | CreateOp t => Ok (DropOp t)
  | DropOp t => Ok (CreateOp t)
  | ReplaceOp t => Ok (RevertOp t)
  | RevertOp _ => Raise NotImplementedError
  end.

(** Chaining two calls, [op.reverse().reverse()]. *)
Definition reverse_twice (op : Op) : Result Op :=
  match reverse op with
  | Ok op' => reverse op'
  | Raise e => Raise e
  end.

(** ** The database and the entity subclasses *)

(** A result row, as the tuple built by [tuple(... .fetchone())]. *)
Abbreviation Row := (list string).

(** What the module takes from its collaborators: the SQL text each concrete
    subclass renders, the subclass's [from_database] listing, the list
    [ReplaceableEntity.__subclasses__()], and the server's reaction to a
    statement ([None]: the statement is rejected) or to a query ([None]: no
    row). *)
Class Backend := {
  DB : Type;
  SQL : Type;
  to_sql_statement_create_or_replace : Entity → SQL;
  get_compare_identity_query : Entity → SQL;
  get_compare_definition_query : Entity → SQL;
  from_database : string → DB → string → list Entity;
  subclasses : list string;
  execute : DB → SQL → option DB;
  fetchone : DB → SQL → option Row;
  (* the class attribute __module__ and the builtins used by the renderers *)
  class_module : string → string;
  py_repr : string → string;
  py_lower : string → string;
  py_strip : string → string;
}.

(** Round trips to the database, in the order they are issued. *)
Inductive Call `{Backend} :=
| CConnect
| CBegin
| CBeginNested
| CExecute (stmt : SQL)
| CQuery (stmt : SQL)
| CFromDatabase (cls sch : string)
| CRollback
| CRelease
| CTransactionRollback
| CClose.

(** Keys of [_CACHE]:
    (class name, "identity" | "definition", schema, signature, definition). *)
Abbreviation Key := (string * string * string * string * string)%type.

Record World `{Backend} := mkWorld {
  live : DB;               (* the catalog as the connection sees it *)
  saves : list DB;         (* snapshots of the open transactions, innermost first *)
  calls : list Call;       (* the round trips so far, oldest first *)
  cache : gmap Key Row;    (* ReplaceableEntity._CACHE *)
  ops : list Op;           (* upgrade_ops.ops *)
  imports : gset string;   (* autogen_context.imports *)
}.

Arguments mkWorld {_} _ _ _ _ _ _.

Section Program.
Context `{Backend}.

Definition set_session (db : DB) (ss : list DB) (w : World) : World :=
  mkWorld db ss (calls w) (cache w) (ops w) (imports w).
Definition log (c : Call) (w : World) : World :=
  mkWorld (live w) (saves w) (calls w ++ [c]) (cache w) (ops w) (imports w).
Definition set_cache (c : gmap Key Row) (w : World) : World :=
  mkWorld (live w) (saves w) (calls w) c (ops w) (imports w).
Definition set_ops (o : list Op) (w : World) : World :=
  mkWorld (live w) (saves w) (calls w) (cache w) o (imports w).
Definition set_imports (i : gset string) (w : World) : World :=
  mkWorld (live w) (saves w) (calls w) (cache w) (ops w) i.

(** ** State and exceptions *)

Definition M (A : Type) : Type := World → Result A * World.

Definition ret {A} (a : A) : M A := λ w, (Ok a, w).
Definition raise {A} (e : exn) : M A := λ w, (Raise e, w).
Definition bind {A B} (m : M A) (k : A → M B) : M B := λ w,
  match m w with
  | (Ok a, w1) => k a w1
  | (Raise e, w1) => (Raise e, w1)
  end.

(** try: body / finally: fin *)
Definition try_finally {A} (body : M A) (fin : M unit) : M A := λ w,
  let '(r, w1) := body w in
  match fin w1 with
  | (Ok _, w2) => (r, w2)
  | (Raise e, w2) => (Raise e, w2)
  end.

(** try: body / except: handler *)
Definition try_except {A} (body : M A) (handler : exn → M A) : M A := λ w,
  match body w with
  | (Ok a, w1) => (Ok a, w1)
  | (Raise e, w1) => handler e w1
  end.

End Program.

Notation "'let*' x ':=' m 'in' k" := (bind m (λ x, k))
  (at level 10, x name, m at level 100, k at level 200).

Section Session.
Context `{Backend}.

(** for x in l: f x *)
Fixpoint for_each {X} (l : list X) (f : X → M unit) : M unit :=
  match l with
  | [] => ret tt
  | x :: rest => let* _ := f x in for_each rest f
  end.

(** [f x for x in l] *)
Fixpoint map_m {X Y} (f : X → M Y) (l : list X) : M (list Y) :=
  match l with
  | [] => ret []
  | x :: rest => let* y := f x in let* ys := map_m f rest in ret (y :: ys)
  end.

(** ** The session *)

(** sess.begin_nested(): a SAVEPOINT; the snapshot it can be rolled back to
    is pushed on the stack of open transactions. *)
Definition begin_nested : M unit := λ w,
  (Ok tt, set_session (live w) (live w :: saves w) (log CBeginNested w)).

(** sess.rollback(): rolls the innermost open transaction back. *)
Definition rollback : M unit := λ w,
  (Ok tt, match saves w with
          | s :: ss => set_session s ss (log CRollback w)
          | [] => log CRollback w
          end).

(** Rolling back, or releasing, the transaction opened at depth [h] together
    with everything still open inside it. *)
Definition rollback_to (h : nat) (w : World) : World :=
  if decide (h < length (saves w)) then
    match drop (length (saves w) - S h) (saves w) with
    | s :: ss => set_session s ss w
    | [] => w
    end
  else w.
Definition release_to (h : nat) (w : World) : World :=
  set_session (live w) (drop (length (saves w) - h) (saves w)) w.

(** with sess.begin_nested(): body -- the transaction's __exit__ commits
    (releases the savepoint) on a normal exit and rolls back on an exception. *)
Definition nested {A} (body : M A) : M A := λ w,
  let h := length (saves w) in
  let '(_, w0) := begin_nested w in
  match body w0 with
  | (Ok a, w1) => (Ok a, release_to h (log CRelease w1))
  | (Raise e, w1) => (Raise e, rollback_to h (log CRollback w1))
  end.

(** sess.execute(stmt) for a DDL statement. *)
Definition sess_execute (stmt : SQL) : M unit := λ w,
  match execute (live w) stmt with
  | Some db => (Ok tt, set_session db (saves w) (log (CExecute stmt) w))
  | None => (Raise DatabaseError, log (CExecute stmt) w)
  end.

(** tuple(sess.execute(query).fetchone()) *)
Definition sess_query_row (query : SQL) : M Row := λ w,
  match fetchone (live w) query with
  | Some row => (Ok row, log (CQuery query) w)
  | None => (Raise TypeError, log (CQuery query) w)
  end.

(** cls.from_database(sess, schema=sch) *)
Definition sess_from_database (cls sch : string) : M (list Entity) := λ w,
  (Ok (from_database cls (live w) sch), log (CFromDatabase cls sch) w).

(** ** simulate_entities *)

Definition simulate_entities {A} (entities : list Entity) (body : M A) : M A :=
  try_finally
    (let* _ := begin_nested in
     let* _ := for_each entities
                 (λ entity, sess_execute (to_sql_statement_create_or_replace entity)) in
     body)
    rollback.

End Session.

Section EntityMethods.
Context `{Backend}.

(** ** Comparables and the cache *)

(** Modelled from the spec: the decorator [cachedmethod] of
    alembic_utils/cache.py.  Section 4.2: on a hit the stored value is returned
    without recomputation; on a miss the method runs and its value is
    stored. *)
Definition cachedmethod (key : Key) (method : M Row) : M Row := λ w,
  match cache w !! key with
  | Some v => (Ok v, w)
  | None =>
    match method w with
    | (Ok v, w1) => (Ok v, set_cache (<[key := v]> (cache w1)) w1)
    | (Raise e, w1) => (Raise e, w1)
    end
  end.

Definition identity_key (self : Entity) : Key :=
  (kind self, "identity", schema self, signature self, definition self).
Definition definition_key (self : Entity) : Key :=
  (kind self, "definition", schema self, signature self, definition self).

Definition get_identity_comparable (self : Entity) : M Row :=
  cachedmethod (identity_key self)
    (let identity_query := get_compare_identity_query self in
     simulate_entities [self] (sess_query_row identity_query)).

Definition get_definition_comparable (self : Entity) : M Row :=
  cachedmethod (definition_key self)
    (let definition_query := get_compare_definition_query self in
     simulate_entities [self] (sess_query_row definition_query)).

Definition is_equal_definition (self other : Entity) : M bool :=
  let* self_comparable := get_definition_comparable self in
  let* other_comparable := get_definition_comparable other in
  ret (bool_decide (self_comparable = other_comparable)).

Definition is_equal_identity (self other : Entity) : M bool :=
  let* self_comparable := get_identity_comparable self in
  let* other_comparable := get_identity_comparable other in
  ret (bool_decide (self_comparable = other_comparable)).

(** [x for x in l if pred x], with a predicate that talks to the database. *)
Fixpoint filter_m {X} (pred : X → M bool) (l : list X) : M (list X) :=
  match l with
  | [] => ret []
  | x :: rest =>
    let* keep := pred x in
    let* xs := filter_m pred rest in
    ret (if keep then x :: xs else xs)
  end.

Definition get_database_definition (self : Entity) : M (option Entity) :=
  let* all_entities := sess_from_database (kind self) (schema self) in
  let* matches := filter_m (is_equal_identity self) all_entities in
  match matches with
  | [] => ret None
  | db_match :: _ => ret (Some db_match)
  end.

(** any(...) over an already built list *)
Definition any (l : list bool) : bool := existsb id l.

Definition get_required_migration_op (self : Entity) : M (option Op) :=
  let* entities_in_database := sess_from_database (kind self) (schema self) in
  let* identical := map_m (is_equal_definition self) entities_in_database in
  let found_identical := any identical in
  let* signatures := map_m (is_equal_identity self) entities_in_database in
  let found_signature := any signatures in
  if found_identical then ret None
  else if found_signature then ret (Some (ReplaceOp self))
  else ret (Some (CreateOp self)).

(** ** Rendering *)

Definition dquote : string := String (Ascii.ascii_of_nat 34) "".
Definition newline : string := String (Ascii.ascii_of_nat 10) "".

(** s.split("(")[0] *)
Fixpoint before_paren (s : string) : string :=
  match s with
  | "" => ""
  | String c rest =>
    if Ascii.eqb c "("%char then "" else String c (before_paren rest)
  end.

Definition to_variable_name (self : Entity) : string :=
  let schema_name := py_lower (schema self) in
  let object_name := py_lower (py_strip (before_paren (signature self))) in
  schema_name +:+ "_" +:+ object_name.

Definition render_self_for_migration (self : Entity) (omit_definition : bool) : string :=
  let var_name := to_variable_name self in
  let class_name := kind self in
  let escaped_definition :=
    if negb omit_definition then definition self else "# not required for op" in
  var_name +:+ " = " +:+ class_name +:+ "(" +:+ newline
  +:+ "            schema=" +:+ dquote +:+ schema self +:+ dquote +:+ "," +:+ newline
  +:+ "            signature=" +:+ dquote +:+ signature self +:+ dquote +:+ "," +:+ newline
  +:+ "            definition=" +:+ py_repr escaped_definition +:+ newline
  +:+ "        )" +:+ newline +:+ newline.

Definition render_import_statement (self : Entity) : string :=
  "from " +:+ class_module (kind self) +:+ " import " +:+ kind self +:+ newline
  +:+ "from sqlalchemy import text as sql_text".

Definition imports_add (line : string) : M unit := λ w,
  (Ok tt, set_imports ({[ line ]} ∪ imports w) w).

(** with engine.connect() as connection: body -- leaving the block closes the
    connection, which discards whatever was still open on it. *)
Definition with_connection {A} (body : M A) : M A := λ w,
  let h := length (saves w) in
  let '(r, w1) := body (log CConnect w) in
  (r, rollback_to h (log CClose w1)).

Definition render_create_entity (op : Op) : M string :=
  let target := target op in
  let* _ := imports_add (render_import_statement target) in
  let variable_name := to_variable_name target in
  ret (render_self_for_migration target false
       +:+ "op.create_entity(" +:+ variable_name +:+ ")").

Definition render_drop_entity (op : Op) : M string :=
  let target := target op in
  let* _ := imports_add (render_import_statement target) in
  let variable_name := to_variable_name target in
  ret (render_self_for_migration target false
       +:+ "op.drop_entity(" +:+ variable_name +:+ ")").

Definition render_replace_entity (op : Op) : M string :=
  let target := target op in
  let* _ := imports_add (render_import_statement target) in
  let variable_name := to_variable_name target in
  ret (render_self_for_migration target false
       +:+ "op.replace_entity(" +:+ variable_name +:+ ")").

(** [db_target] is used as it comes back from [get_database_definition]; on
    [None] the first attribute access, [db_target.to_variable_name], fails. *)
Definition render_revert_entity (op : Op) : M string :=
  let target := target op in
  let* _ := imports_add (render_import_statement target) in
  let* db_target := with_connection (get_database_definition target) in
  match db_target with
  | None => raise AttributeError
  | Some db_target =>
    let variable_name := to_variable_name db_target in
    ret (render_self_for_migration db_target false
         +:+ "op.replace_entity(" +:+ variable_name +:+ ")")
  end.

End EntityMethods.

(** ** register_entities / compare_registered_entities *)

Section Registration.
Context `{Backend}.

(** flupy's [sort(key=...)]: a stable sort on the key. *)
Fixpoint insert_sorted (x : Entity) (l : list Entity) : list Entity :=
  match l with
  | [] => [x]
  | y :: rest =>
    if String.leb (identity x) (identity y) then x :: y :: rest
    else y :: insert_sorted x rest
  end.
Definition sort_by_identity (l : list Entity) : list Entity :=
  foldr insert_sorted [] l.

(** itertools.groupby: maximal runs of neighbours with the same key. *)
Fixpoint groupby (l : list Entity) : list (string * list Entity) :=
  match l with
  | [] => []
  | x :: rest =>
    match groupby rest with
    | (ident, function_group) :: groups =>
      if decide (identity x = ident)
      then (ident, x :: function_group) :: groups
      else (identity x, [x]) :: (ident, function_group) :: groups
    | [] => [(identity x, [x])]
    end
  end.

(** flu(entities).group_by(key=lambda x: x.identity) *)
Definition group_by (entities : list Entity) : list (string * list Entity) :=
  groupby (sort_by_identity entities).

Definition duplicate_message (ident : string) : string :=
  "PGFunction with identity " +:+ ident +:+ " was registered multiple times".

(** The loop that ensures the registered identities are unique. *)
Fixpoint check_unique (groups : list (string * list Entity)) : M unit :=
  match groups with
  | [] => ret tt
  | (ident, function_group) :: rest =>
    if decide (1 < length function_group)
    then raise (DuplicateRegistration (duplicate_message ident))
    else check_unique rest
  end.

(** User registered schemas, the schemas of the SQLAlchemy metadata and the
    schemas of the registered entities, less the excluded ones.  The
    intermediate [set(...)] is a [gset]; like a Python set it fixes no
    iteration order one could rely on. *)
Definition observed_schemas (entities : list Entity)
    (schemas exclude_schemas : option (list string))
    (sqla_schemas : option (list (option string))) : list string :=
  let observed := default [] schemas in
  let sqla := omap id (default [] sqla_schemas) in
  let observed := observed ++ sqla in
  let observed := observed ++ map schema entities in
  List.filter (λ x, bool_decide (x ∉ default [] exclude_schemas))
    (elements (list_to_set observed : gset string)).

(** One attempt of the resolver at placing [entity] after [resolved]. *)
Definition try_resolve (resolved : list Entity) (entity : Entity) : M (list Entity) :=
  try_except
    (nested (simulate_entities (resolved ++ [entity]) (ret (resolved ++ [entity]))))
    (λ _, ret resolved).

(** for entity in entities: ... (one pass of the resolver) *)
Fixpoint resolve_pass (entities resolved : list Entity) : M (list Entity) :=
  match entities with
  | [] => ret resolved
  | entity :: rest =>
    if decide (entity ∈ resolved) then resolve_pass rest resolved
    else
      let* resolved := try_resolve resolved entity in
      resolve_pass rest resolved
  end.

(** for _ in range(n): one pass *)
Fixpoint resolve_passes (n : nat) (entities resolved : list Entity) : M (list Entity) :=
  match n with
  | 0 => ret resolved
  | S n =>
    let* resolved := resolve_pass entities resolved in
    resolve_passes n entities resolved
  end.

Definition resolve (entities : list Entity) : M (list Entity) :=
  resolve_passes (length entities) entities [].

Definition failed_message (entity : Entity) : string :=
  "failed to simulate entity " +:+ signature entity.

(** The loop after the resolver: the first entity that was not placed is
    simulated once more to report it. *)
Fixpoint report_unresolved (entities resolved : list Entity) : M unit :=
  match entities with
  | [] => ret tt
  | entity :: rest =>
    if decide (entity ∉ resolved) then
      let* _ :=
        nested
          (try_except
             (simulate_entities (resolved ++ [entity]) (ret tt))
             (λ _, raise (FailedToGenerateComparable (failed_message entity)))) in
      raise UnreachableException
    else report_unresolved rest resolved
  end.

(** flu(l).take_while(pred).collect() *)
Fixpoint take_while {X} (pred : X → bool) (l : list X) : list X :=
  match l with
  | [] => []
  | x :: rest => if pred x then x :: take_while pred rest else []
  end.

Definition ops_append (op : Op) : M unit := λ w,
  (Ok tt, set_ops (ops w ++ [op]) w).

(** The body of the loop over [resolved_entities].  The list
    [processed_entities] is only ever appended to and is left out. *)
Definition diff_entity (resolved_entities : list Entity) (local_entity : Entity) : M unit :=
  let possible_dependencies :=
    take_while (λ x, bool_decide (x ≠ local_entity)) resolved_entities in
  let* maybe_op :=
    simulate_entities possible_dependencies (get_required_migration_op local_entity) in
  match maybe_op with
  | Some op => ops_append op
  | None => ret tt
  end.

(** for local_entity in entities: if db_entity.is_equal_identity(...): break
    -- [true] when the loop was left by [break]. *)
Fixpoint matches_local (db_entity : Entity) (entities : list Entity) : M bool :=
  match entities with
  | [] => ret false
  | local_entity :: rest =>
    let* equal := is_equal_identity db_entity local_entity in
    if equal then ret true else matches_local db_entity rest
  end.

Definition drop_deleted (entities : list Entity) (db_entity : Entity) : M unit :=
  let* found := matches_local db_entity entities in
  if found then ret tt else ops_append (DropOp db_entity).

Definition find_drops (entities : list Entity) (observed : list string) : M unit :=
  for_each observed (λ schema,
    for_each subclasses (λ entity_class,
      let* db_entities := sess_from_database entity_class schema in
      for_each db_entities (drop_deleted entities))).

(** connection.begin(): the parent transaction; the value returned stands for
    the transaction object. *)
Definition connection_begin : M nat := λ w,
  (Ok (length (saves w)), set_session (live w) (live w :: saves w) (log CBegin w)).

(** transaction.rollback() *)
Definition transaction_rollback (transaction : nat) : M unit := λ w,
  (Ok tt, rollback_to transaction (log CTransactionRollback w)).

Definition compare_registered_entities (entities : list Entity)
    (schemas exclude_schemas : option (list string))
    (sqla_schemas : option (list (option string))) : M unit :=
  let* _ := check_unique (group_by entities) in
  let observed := observed_schemas entities schemas exclude_schemas sqla_schemas in
  with_connection
    (let* transaction := connection_begin in
     try_finally
       (let* _ := begin_nested in
        let* resolved_entities := resolve entities in
        let* _ := report_unresolved entities resolved_entities in
        let* _ := for_each resolved_entities (diff_entity resolved_entities) in
        find_drops entities observed)
       (transaction_rollback transaction)).

End Registration.

(** * The vocabulary of the statements *)

Section Vocabulary.
Context `{Backend}.

Definition logs (k : list Call) (w : World) : World :=
  mkWorld (live w) (saves w) (calls w ++ k) (cache w) (ops w) (imports w).

(** The statements of a list of entities, issued in order from [db]. *)
Fixpoint materialize (db : DB) (l : list Entity) : option DB :=
  match l with
  | [] => Some db
  | e :: rest =>
    match execute db (to_sql_statement_create_or_replace e) with
    | Some db' => materialize db' rest
    | None => None
    end
  end.

Definition execute_calls (l : list Entity) : list Call :=
  map (λ e, CExecute (to_sql_statement_create_or_replace e)) l.

(** The entities whose statement reaches the server: all of them, or those up
    to and including the first one it rejects. *)
Fixpoint issued (db : DB) (l : list Entity) : list Entity :=
  match l with
  | [] => []
  | e :: rest =>
    match execute db (to_sql_statement_create_or_replace e) with
    | Some db' => e :: issued db' rest
    | None => [e]
    end
  end.

(** Calls made while a parent transaction is open. *)
Definition inner_call (c : Call) : Prop :=
  match c with
  | CConnect | CBegin | CTransactionRollback | CClose => False
  | _ => True
  end.

(** [extends w w']: [w'] is [w] after work that left the session where it
    was, only added to the cache and only appended to the logs. *)
Record extends (w w' : World) : Prop := mkExtends {
  ext_live : live w' = live w;
  ext_saves : saves w' = saves w;
  ext_cache : cache w ⊆ cache w';
  ext_calls : ∃ k, calls w' = calls w ++ k ∧ Forall inner_call k;
  ext_ops : ∃ o, ops w' = ops w ++ o;
  ext_imports : imports w' = imports w;
}.

(** A computation every run of which [extends] the world it started in. *)
Definition framed {A} (m : M A) : Prop :=
  ∀ w r w', m w = (r, w') → extends w w'.

(** A computation that moreover leaves [upgrade_ops.ops] alone. *)
Definition quiet {A} (m : M A) : Prop :=
  ∀ w r w', m w = (r, w') → extends w w' ∧ ops w' = ops w.

(** The identity and definition comparables of an entity, as stored. *)
Definition cached_identity (w : World) (e : Entity) : option Row :=
  cache w !! identity_key e.

Definition cached_definition (w : World) (e : Entity) : option Row :=
  cache w !! definition_key e.

(** Two comparables are equal when both are known and are the same row. *)
Definition same_row (a b : option Row) : bool :=
  match a, b with
  | Some x, Some y => bool_decide (x = y)
  | _, _ => false
  end.

Definition same_identity (w : World) (a b : Entity) : bool :=
  same_row (cached_identity w a) (cached_identity w b).

Definition same_definition (w : World) (a b : Entity) : bool :=
  same_row (cached_definition w a) (cached_definition w b).

(** The rule [get_required_migration_op] applies, read on the comparables the
    cache holds. *)
Definition required_op (w : World) (self : Entity) (entities_in_database : list Entity)
    : option Op :=
  if existsb (same_definition w self) entities_in_database then None
  else if existsb (same_identity w self) entities_in_database then Some (ReplaceOp self)
  else Some (CreateOp self).

(** The rule in the words of the specification: only a live entity of equal
    identity counts as already satisfying the declaration. *)
Definition specified_op (w : World) (self : Entity) (entities_in_database : list Entity)
    : option Op :=
  if existsb (λ x, same_identity w self x && same_definition w self x) entities_in_database
  then None
  else if existsb (same_identity w self) entities_in_database then Some (ReplaceOp self)
  else Some (CreateOp self).

(** A live entity that no registered entity has the identity of. *)
Definition orphan (w : World) (entities : list Entity) (db_entity : Entity) : bool :=
  negb (existsb (same_identity w db_entity) entities).

(** The drops of the orphans, schema by schema and class by class. *)
Definition expected_drops (w : World) (entities : list Entity)
    (observed : list string) (db : DB) : list Op :=
  flat_map (λ sch,
    flat_map (λ cls,
      map DropOp (List.filter (orphan w entities) (from_database cls db sch)))
      subclasses) observed.

Definition is_upgrade (op : Op) : Prop :=
  match op with
  | CreateOp _ | ReplaceOp _ => True
  | _ => False
  end.

(** The world in which [render_revert_entity] looks its target up. *)
Definition revert_lookup (op : Op) (w : World) : World :=
  log CConnect
    (set_imports ({[ render_import_statement (target op) ]} ∪ imports w) w).

Definition identity_le (a b : Entity) : Prop := (identity a ≤ identity b)%string.

(** Two neighbours of a list with the same identity. *)
Definition adjacent_duplicate (ident : string) (l : list Entity) : Prop :=
  ∃ l1 x y l2, l = l1 ++ x :: y :: l2 ∧ identity x = ident ∧ identity y = ident.

(** The world in which the resolver starts: connected, inside the parent
    transaction and the session's first savepoint. *)
Definition plan_start (w : World) : World :=
  set_session (live w) (live w :: live w :: saves w)
    (logs [CConnect; CBegin; CBeginNested] w).

(** What runs between that point and the rollback of the parent
    transaction. *)
Definition plan_body (entities : list Entity) (observed : list string) : M unit :=
  let* resolved_entities := resolve entities in
  let* _ := report_unresolved entities resolved_entities in
  let* _ := for_each resolved_entities (diff_entity resolved_entities) in
  find_drops entities observed.

(** The world [compare_registered_entities] leaves behind when [plan_body]
    ended in [w2]. *)
Definition plan_finish (w w2 : World) : World :=
  mkWorld (live w) (saves w) (calls w2 ++ [CTransactionRollback; CClose])
    (cache w2) (ops w2) (imports w2).

(** The resolver as a function of the catalog the trials start from. *)
Fixpoint placed_by_pass (db : DB) (entities resolved : list Entity) : list Entity :=
  match entities with
  | [] => resolved
  | entity :: rest =>
    if decide (entity ∈ resolved) then placed_by_pass db rest resolved
    else if materialize db (resolved ++ [entity]) is Some _
    then placed_by_pass db rest (resolved ++ [entity])
    else placed_by_pass db rest resolved
  end.

Fixpoint placed_by_passes (db : DB) (n : nat) (entities resolved : list Entity)
    : list Entity :=
  match n with
  | 0 => resolved
  | S n => placed_by_passes db n entities (placed_by_pass db entities resolved)
  end.

(** [x] is registered and its create statement references [y]. *)
Definition depends_on (entities : list Entity) (deps : Entity → list Entity)
    (x y : Entity) : Prop :=
  x ∈ entities ∧ y ∈ deps x.

(** [a] comes before [b] in [l]. *)
Definition precedes (a b : Entity) (l : list Entity) : Prop :=
  ∃ l1 l2 l3, l = l1 ++ a :: l2 ++ b :: l3.

(** The invariant of the resolver: what is placed is registered, and can be
    created in that order from the catalog [db0]. *)
Definition placeable (db0 : DB) (entities rc : list Entity) : Prop :=
  (∀ x, x ∈ rc → x ∈ entities) ∧ is_Some (materialize db0 rc).

(** The registered entities that [rc] does not hold. *)
Definition unresolved (entities rc : list Entity) : list Entity :=
  List.filter (λ e, bool_decide (e ∉ rc)) entities.

(** A computation that raises nothing but exceptions in [P]. *)
Definition raises {A} (P : exn → Prop) (m : M A) : Prop :=
  ∀ w e w', m w = (Raise e, w') → P e.

(** What the server makes the module raise: a rejected statement, or a query
    without a row. *)
Definition server_error (e : exn) : Prop := e = DatabaseError ∨ e = TypeError.

(** The exceptions of [compare_registered_entities]. *)
Definition plan_error (entities : list Entity) (e : exn) : Prop :=
  server_error e
  ∨ (∃ ident, ident ∈ map identity entities
              ∧ e = DuplicateRegistration (duplicate_message ident))
  ∨ (∃ entity, entity ∈ entities
               ∧ e = FailedToGenerateComparable (failed_message entity)).

End Vocabulary.

(** ** A small catalog to run the embedding on *)

Module Catalog.

(** The three statements the module ever sends. *)
Inductive sql :=
| CreateOrReplace (e : Entity)
| SelectIdentity (e : Entity)
| SelectDefinition (e : Entity).

Definition present (ident : string) (db : list Entity) : bool :=
  bool_decide (ident ∈ map identity db).

(** CREATE OR REPLACE: rejected unless every object named by [needs] exists;
    otherwise the object of that identity is created or replaced. *)
Definition run (needs : Entity → list string) (db : list Entity) (stmt : sql)
    : option (list Entity) :=
  match stmt with
  | CreateOrReplace e =>
    if forallb (λ ident, present ident db) (needs e)
    then Some (e :: List.filter (λ x, bool_decide (identity x ≠ identity e)) db)
    else None
  | _ => Some db
  end.

(** The identity row names the object; the definition row is its body. *)
Definition row (db : list Entity) (stmt : sql) : option Row :=
  match stmt with
  | SelectIdentity e =>
    (λ x, [schema x; signature x]) <$> find (λ x, bool_decide (identity x = identity e)) db
  | SelectDefinition e =>
    (λ x, [definition x]) <$> find (λ x, bool_decide (identity x = identity e)) db
  | CreateOrReplace _ => None
  end.

Definition listing (cls : string) (db : list Entity) (sch : string) : list Entity :=
  List.filter (λ x, bool_decide (kind x = cls) && bool_decide (schema x = sch)) db.

Definition ascii_lower (c : ascii) : ascii :=
  let n := nat_of_ascii c in
  if Nat.leb 65 n && Nat.leb n 90 then ascii_of_nat (n + 32) else c.
Fixpoint lower (s : string) : string :=
  match s with
  | "" => ""
  | String c rest => String (ascii_lower c) (lower rest)
  end.
Fixpoint lstrip (s : string) : string :=
  match s with
  | String c rest => if Ascii.is_space c then lstrip rest else s
  | "" => ""
  end.
Definition strip (s : string) : string :=
  String.rev (lstrip (String.rev (lstrip s))).

Definition backend (needs : Entity → list string) : Backend := {|
  DB := list Entity;
  SQL := sql;
  to_sql_statement_create_or_replace := CreateOrReplace;
  get_compare_identity_query := SelectIdentity;
  get_compare_definition_query := SelectDefinition;
  from_database := listing;
  subclasses := ["PGFunction"; "PGView"];
  execute := run needs;
  fetchone := row;
  class_module := λ cls, "alembic_utils." +:+ lower cls;
  py_repr := λ s, "'" +:+ s +:+ "'";
  py_lower := lower;
  py_strip := strip;
|}.

Definition empty_world (needs : Entity → list string) (db : list Entity)
    : @World (backend needs) :=
  @mkWorld (backend needs) db [] [] ∅ [] ∅.

(** Two views, the second selecting from the first. *)
Definition v1 : Entity := mkEntity "PGView" "public" "v1" "SELECT 1".
Definition v2 : Entity := mkEntity "PGView" "public" "v2" "SELECT * FROM public.v1".
Definition views_need (e : Entity) : list string :=
  if decide (signature e = "v2") then ["public.v1"] else [].

(** Two views selecting from each other. *)
Definition c1 : Entity := mkEntity "PGView" "public" "c1" "SELECT * FROM public.c2".
Definition c2 : Entity := mkEntity "PGView" "public" "c2" "SELECT * FROM public.c1".
Definition cycle_need (e : Entity) : list string :=
  if decide (signature e = "c1") then ["public.c2"]
  else if decide (signature e = "c2") then ["public.c1"] else [].

(** The entities [v2] needs, among the registered ones. *)
Definition views_deps (e : Entity) : list Entity :=
  if decide (signature e = "v2") then [v1] else [].

(** The view [v1] as an earlier migration left it. *)
Definition v1_live : Entity := mkEntity "PGView" "public" "v1" "SELECT 2".

(** A function, a view calling it, a function nobody declares any more, and
    a newly declared function with the body of the latter. *)
Definition fn : Entity := mkEntity "PGFunction" "public" "f()" "SELECT 1".
Definition view_of_fn : Entity := mkEntity "PGView" "public" "v" "SELECT f()".
Definition f_old : Entity := mkEntity "PGFunction" "public" "f_old()" "SELECT 0".
Definition f_new : Entity := mkEntity "PGFunction" "public" "f_new()" "SELECT 0".
Definition fn_need (e : Entity) : list string :=
  if decide (signature e = "v") then ["public.f()"] else [].

End Catalog.

(** * Reasoning about the embedding *)

Section Frames.
Context `{Backend}.

(** ** Worlds *)

#[global] Instance extends_preorder : PreOrder extends.
Proof.
  split.
  - intros w. split; try done.
    + exists []. by rewrite app_nil_r.
    + exists []. by rewrite app_nil_r.
  - intros w1 w2 w3 [L1 S1 C1 [k1 [K1 F1]] [o1 O1] I1] [L2 S2 C2 [k2 [K2 F2]] [o2 O2] I2].
    split.
    + congruence.
    + congruence.
    + by etrans.
    + exists (k1 ++ k2). rewrite K2, K1, <- app_assoc. split; [done|].
      by apply Forall_app.
    + exists (o1 ++ o2). by rewrite O2, O1, <- app_assoc.
    + congruence.
Qed.

Lemma quiet_framed {A} (m : M A) : quiet m → framed m.
Proof. intros Hq w r w' E. by destruct (Hq _ _ _ E). Qed.

Lemma quiet_ret {A} (a : A) : quiet (ret a).
Proof. intros w r w' [= <- <-]. done. Qed.

Lemma quiet_raise {A} (e : exn) : quiet (raise (A := A) e).
Proof. intros w r w' [= <- <-]. done. Qed.

Lemma quiet_bind {A B} (m : M A) (k : A → M B) :
  quiet m → (∀ a, quiet (k a)) → quiet (bind m k).
Proof.
  intros Hm Hk w r w' E. unfold bind in E.
  destruct (m w) as [[a|e] w1] eqn:Em.
  - destruct (Hm _ _ _ Em) as [X1 O1], (Hk _ _ _ _ E) as [X2 O2].
    split; [by etrans | congruence].
  - injection E as <- <-. eauto.
Qed.

Lemma framed_ret {A} (a : A) : framed (ret a).
Proof. apply quiet_framed, quiet_ret. Qed.

Lemma framed_raise {A} (e : exn) : framed (raise (A := A) e).
Proof. apply quiet_framed, quiet_raise. Qed.

Lemma framed_bind {A B} (m : M A) (k : A → M B) :
  framed m → (∀ a, framed (k a)) → framed (bind m k).
Proof.
  intros Hm Hk w r w' E. unfold bind in E.
  destruct (m w) as [[a|e] w1] eqn:Em.
  - etrans; [exact (Hm _ _ _ Em) | exact (Hk _ _ _ _ E)].
  - injection E as <- <-. eauto.
Qed.

Lemma quiet_try_except {A} (m : M A) (handler : exn → M A) :
  quiet m → (∀ e, quiet (handler e)) → quiet (try_except m handler).
Proof.
  intros Hm Hh w r w' E. unfold try_except in E.
  destruct (m w) as [[a|e] w1] eqn:Em.
  - injection E as <- <-. eauto.
  - destruct (Hm _ _ _ Em) as [X1 O1], (Hh _ _ _ _ E) as [X2 O2].
    split; [by etrans | congruence].
Qed.

Lemma quiet_for_each {X} (l : list X) (f : X → M unit) :
  (∀ x, quiet (f x)) → quiet (for_each l f).
Proof.
  intros Hf. induction l as [|x l IH]; simpl.
  - apply quiet_ret.
  - apply quiet_bind; auto.
Qed.

Lemma framed_for_each {X} (l : list X) (f : X → M unit) :
  (∀ x, framed (f x)) → framed (for_each l f).
Proof.
  intros Hf. induction l as [|x l IH]; simpl.
  - apply framed_ret.
  - apply framed_bind; auto.
Qed.

Lemma quiet_map_m {X Y} (f : X → M Y) (l : list X) :
  (∀ x, quiet (f x)) → quiet (map_m f l).
Proof.
  intros Hf. induction l as [|x l IH]; simpl.
  - apply quiet_ret.
  - apply quiet_bind; [auto|]. intros y.
    apply quiet_bind; [auto|]. intros ys. apply quiet_ret.
Qed.

Lemma quiet_filter_m {X} (f : X → M bool) (l : list X) :
  (∀ x, quiet (f x)) → quiet (filter_m f l).
Proof.
  intros Hf. induction l as [|x l IH]; simpl.
  - apply quiet_ret.
  - apply quiet_bind; [auto|]. intros y.
    apply quiet_bind; [auto|]. intros ys. apply quiet_ret.
Qed.

End Frames.

Section SessionFacts.
Context `{Backend}.

Ltac world_eq :=
  repeat match goal with w : World |- _ => destruct w end;
  unfold set_session, log, logs, set_cache, set_ops; simpl;
  rewrite <- ?app_assoc, ?app_nil_r; simpl; try done.

Lemma logs_nil w : logs [] w = w.
Proof. world_eq. Qed.

Lemma execute_calls_app l1 l2 :
  execute_calls (l1 ++ l2) = execute_calls l1 ++ execute_calls l2.
Proof. apply map_app. Qed.

Lemma execute_calls_inner l : Forall inner_call (execute_calls l).
Proof. induction l; constructor; done. Qed.

Lemma materialize_app db l1 l2 :
  materialize db (l1 ++ l2) =
  match materialize db l1 with
  | Some db1 => materialize db1 l2
  | None => None
  end.
Proof.
  revert db. induction l1 as [|e l1 IH]; intros db; simpl; [done|].
  destruct (execute db _); [apply IH | done].
Qed.

(** A failing batch has a first statement the server rejects. *)
Lemma materialize_None db l :
  materialize db l = None →
  ∃ pre e post db',
    l = pre ++ e :: post ∧ materialize db pre = Some db' ∧
    execute db' (to_sql_statement_create_or_replace e) = None.
Proof.
  revert db. induction l as [|e l IH]; intros db; simpl; [done|].
  destruct (execute db _) as [db1|] eqn:E.
  - intros (pre & e' & post & db' & -> & Hpre & Hfail)%IH.
    exists (e :: pre), e', post, db'. simpl. by rewrite E.
  - intros _. by exists [], e, l, db.
Qed.

Lemma for_each_execute_ok l w db :
  materialize (live w) l = Some db →
  for_each l (λ entity, sess_execute (to_sql_statement_create_or_replace entity)) w
  = (Ok tt, set_session db (saves w) (logs (execute_calls l) w)).
Proof.
  revert w. induction l as [|e l IH]; intros w; simpl.
  - intros [= <-]. unfold ret. f_equal; world_eq.
  - unfold bind, sess_execute.
    destruct (execute (live w) _) as [db1|] eqn:E; [|done].
    intros Hm. rewrite IH by exact Hm. f_equal; world_eq.
Qed.

Lemma for_each_execute_fail pre e post w db :
  materialize (live w) pre = Some db →
  execute db (to_sql_statement_create_or_replace e) = None →
  for_each (pre ++ e :: post)
    (λ entity, sess_execute (to_sql_statement_create_or_replace entity)) w
  = (Raise DatabaseError, set_session db (saves w) (logs (execute_calls (pre ++ [e])) w)).
Proof.
  revert w. induction pre as [|x pre IH]; intros w; simpl.
  - intros [= <-] E. unfold bind, sess_execute. rewrite E. f_equal; world_eq.
  - unfold bind at 1. unfold sess_execute at 1.
    destruct (execute (live w) _) as [db1|] eqn:E1; [|done].
    intros Hm E. rewrite IH by (exact Hm || exact E). f_equal; world_eq.
Qed.

Lemma simulate_entities_ok {A} l (body : M A) w db :
  materialize (live w) l = Some db →
  let inside :=
    set_session db (live w :: saves w) (logs (CBeginNested :: execute_calls l) w) in
  simulate_entities l body w = ((body inside).1, (rollback (body inside).2).2).
Proof.
  intros Hm inside. unfold simulate_entities, try_finally, bind, begin_nested.
  rewrite (for_each_execute_ok l _ db) by exact Hm.
  replace (set_session db _ _) with inside by (subst inside; world_eq).
  by destruct (body inside) as [[a|e] w2].
Qed.

Lemma simulate_entities_fail {A} pre e post (body : M A) w db :
  materialize (live w) pre = Some db →
  execute db (to_sql_statement_create_or_replace e) = None →
  simulate_entities (pre ++ e :: post) body w
  = (Raise DatabaseError,
     logs (CBeginNested :: execute_calls (pre ++ [e]) ++ [CRollback]) w).
Proof.
  intros Hm E. unfold simulate_entities, try_finally, bind, begin_nested.
  rewrite (for_each_execute_fail pre e post _ db) by (exact Hm || exact E).
  unfold rollback. simpl. f_equal; world_eq.
Qed.

Lemma quiet_simulate_entities {A} l (body : M A) :
  quiet body → quiet (simulate_entities l body).
Proof.
  intros Hb w r w' E.
  destruct (materialize (live w) l) as [db|] eqn:Hm.
  - rewrite (simulate_entities_ok _ _ _ _ Hm) in E. simpl in E.
    destruct (body _) as [r2 w2] eqn:Eb. simpl in E.
    destruct (Hb _ _ _ Eb) as [[HL HS HC (k & K & F) (o & O) HI] O2].
    simpl in HL, HS, HC, K, O, HI, O2.
    injection E as <- <-. unfold rollback. simpl. rewrite HS. simpl.
    split; [split|]; simpl; try done.
    + exists ((CBeginNested :: execute_calls l) ++ k ++ [CRollback]).
      rewrite K, <- !app_assoc. split; [done|].
      apply Forall_app. split; [constructor; [done|apply execute_calls_inner]|].
      apply Forall_app. split; [done|]. by repeat constructor.
    + exists []. by rewrite app_nil_r.
  - apply materialize_None in Hm as (pre & e & post & db & -> & Hpre & Hfail).
    rewrite (simulate_entities_fail _ _ _ _ _ _ Hpre Hfail) in E.
    injection E as <- <-. split; [split|]; simpl; try done.
    + eexists. split; [done|]. constructor; [done|].
      apply Forall_app. split; [apply execute_calls_inner | by repeat constructor].
    + exists []. by rewrite app_nil_r.
Qed.

Lemma quiet_nested {A} (body : M A) : quiet body → quiet (nested body).
Proof.
  intros Hb w r w' E. unfold nested, begin_nested in E.
  destruct (body _) as [r2 w2] eqn:Eb.
  destruct (Hb _ _ _ Eb) as [[HL HS HC (k & K & F) (o & O) HI] O2].
  simpl in HL, HS, HC, K, O, HI, O2.
  destruct r2 as [a|e]; injection E as <- <-.
  - unfold release_to. simpl. rewrite HS. simpl.
    replace (S (length (saves w)) - length (saves w)) with 1 by lia. simpl.
    split; [split|]; simpl; try done.
    + exists ([CBeginNested] ++ k ++ [CRelease]).
      rewrite K, <- !app_assoc. split; [done|].
      constructor; [done|]. apply Forall_app. split; [done|]. by repeat constructor.
    + exists []. by rewrite app_nil_r.
  - unfold rollback_to. simpl. rewrite HS. simpl.
    rewrite decide_True by lia.
    replace (length (saves w) - length (saves w)) with 0 by lia. simpl.
    split; [split|]; simpl; try done.
    + exists ([CBeginNested] ++ k ++ [CRollback]).
      rewrite K, <- !app_assoc. split; [done|].
      constructor; [done|]. apply Forall_app. split; [done|]. by repeat constructor.
    + exists []. by rewrite app_nil_r.
Qed.

Lemma quiet_sess_query_row q : quiet (sess_query_row q).
Proof.
  intros w r w' E. unfold sess_query_row in E.
  destruct (fetchone _ _); injection E as <- <-.
  all: split; [split|]; simpl; try done.
  all: try (exists []; by rewrite app_nil_r).
  all: eexists; split; [done|]; by repeat constructor.
Qed.

Lemma quiet_sess_from_database cls sch : quiet (sess_from_database cls sch).
Proof.
  intros w r w' [= <- <-]. split; [split|]; simpl; try done.
  - eexists; split; [done|]; by repeat constructor.
  - exists []; by rewrite app_nil_r.
Qed.

End SessionFacts.

(** ** Comparables as the cache records them *)

Section CacheFacts.
Context `{Backend}.

Lemma extends_lookup w w' key v :
  extends w w' → cache w !! key = Some v → cache w' !! key = Some v.
Proof. intros [_ _ HC _ _ _] Hv. by eapply lookup_weaken. Qed.

Lemma cachedmethod_spec key method w r w' :
  quiet method →
  cachedmethod key method w = (r, w') →
  extends w w' ∧ ops w' = ops w ∧ ∀ v, r = Ok v → cache w' !! key = Some v.
Proof.
  intros Hq E. unfold cachedmethod in E.
  destruct (cache w !! key) as [v0|] eqn:Hk.
  - injection E as <- <-. split_and!; [reflexivity|done|]. by intros v [= <-].
  - destruct (method w) as [[v|e] w1] eqn:Em; injection E as <- <-.
    + destruct (Hq _ _ _ Em) as [[HL HS HC HK HO HI] O2].
      split_and!.
      * split; simpl; try done. by apply insert_subseteq_r.
      * done.
      * intros ? [= <-]. simpl. apply lookup_insert_eq.
    + destruct (Hq _ _ _ Em) as [HX O2]. by split_and!.
Qed.

Lemma get_identity_comparable_spec e w r w' :
  get_identity_comparable e w = (r, w') →
  extends w w' ∧ ops w' = ops w ∧ ∀ v, r = Ok v → cached_identity w' e = Some v.
Proof.
  apply cachedmethod_spec, quiet_simulate_entities, quiet_sess_query_row.
Qed.

Lemma get_definition_comparable_spec e w r w' :
  get_definition_comparable e w = (r, w') →
  extends w w' ∧ ops w' = ops w ∧ ∀ v, r = Ok v → cached_definition w' e = Some v.
Proof.
  apply cachedmethod_spec, quiet_simulate_entities, quiet_sess_query_row.
Qed.

Lemma quiet_is_equal_identity a b : quiet (is_equal_identity a b).
Proof.
  apply quiet_bind.
  { intros w r w' E. by destruct (get_identity_comparable_spec _ _ _ _ E) as (? & ? & _). }
  intros ra. apply quiet_bind.
  { intros w r w' E. by destruct (get_identity_comparable_spec _ _ _ _ E) as (? & ? & _). }
  intros rb. apply quiet_ret.
Qed.

Lemma quiet_is_equal_definition a b : quiet (is_equal_definition a b).
Proof.
  apply quiet_bind.
  { intros w r w' E. by destruct (get_definition_comparable_spec _ _ _ _ E) as (? & ? & _). }
  intros ra. apply quiet_bind.
  { intros w r w' E. by destruct (get_definition_comparable_spec _ _ _ _ E) as (? & ? & _). }
  intros rb. apply quiet_ret.
Qed.

(** Once [is_equal_identity] has answered, its answer can be read off the
    cache, then and at any later time. *)
Lemma is_equal_identity_stable a b w r w' w'' :
  is_equal_identity a b w = (Ok r, w') → extends w' w'' →
  r = same_identity w'' a b.
Proof.
  unfold is_equal_identity, bind. intros E Hx.
  destruct (get_identity_comparable a w) as [[ra|?] w1] eqn:Ea; [|done].
  destruct (get_identity_comparable b w1) as [[rb|?] w2] eqn:Eb; [|done].
  injection E as <- <-.
  destruct (get_identity_comparable_spec _ _ _ _ Ea) as (_ & _ & Ha).
  destruct (get_identity_comparable_spec _ _ _ _ Eb) as (X2 & _ & Hb).
  specialize (Ha _ eq_refl). specialize (Hb _ eq_refl).
  unfold same_identity, cached_identity in *.
  rewrite (extends_lookup w2 w'' _ rb Hx Hb).
  rewrite (extends_lookup w1 w'' _ ra (transitivity X2 Hx) Ha).
  done.
Qed.

Lemma is_equal_definition_stable a b w r w' w'' :
  is_equal_definition a b w = (Ok r, w') → extends w' w'' →
  r = same_definition w'' a b.
Proof.
  unfold is_equal_definition, bind. intros E Hx.
  destruct (get_definition_comparable a w) as [[ra|?] w1] eqn:Ea; [|done].
  destruct (get_definition_comparable b w1) as [[rb|?] w2] eqn:Eb; [|done].
  injection E as <- <-.
  destruct (get_definition_comparable_spec _ _ _ _ Ea) as (_ & _ & Ha).
  destruct (get_definition_comparable_spec _ _ _ _ Eb) as (X2 & _ & Hb).
  specialize (Ha _ eq_refl). specialize (Hb _ eq_refl).
  unfold same_definition, cached_definition in *.
  rewrite (extends_lookup w2 w'' _ rb Hx Hb).
  rewrite (extends_lookup w1 w'' _ ra (transitivity X2 Hx) Ha).
  done.
Qed.

(** A list comprehension over a database predicate whose answers are stable
    computes the pure map of the stable answer. *)
Lemma map_m_stable {X Y} (f : X → M Y) (g : World → X → Y) l :
  (∀ x, quiet (f x)) →
  (∀ x w y w' w'', f x w = (Ok y, w') → extends w' w'' → y = g w'' x) →
  ∀ w ys w' w'', map_m f l w = (Ok ys, w') → extends w' w'' → ys = map (g w'') l.
Proof.
  intros Hq Hs. induction l as [|x l IH]; intros w ys w' w''; simpl.
  - by intros [= <- <-].
  - unfold bind at 1. destruct (f x w) as [[y|?] w1] eqn:Ef; [|done].
    unfold bind at 1. destruct (map_m f l w1) as [[ys'|?] w2] eqn:Em; [|done].
    intros [= <- <-] Hx.
    rewrite <- (IH _ _ _ _ Em Hx). f_equal.
    eapply Hs; [done|].
    destruct (quiet_map_m f l Hq _ _ _ Em) as [X2 _]. by etrans.
Qed.

Lemma filter_m_stable {X} (f : X → M bool) (g : World → X → bool) l :
  (∀ x, quiet (f x)) →
  (∀ x w y w' w'', f x w = (Ok y, w') → extends w' w'' → y = g w'' x) →
  ∀ w ys w' w'', filter_m f l w = (Ok ys, w') → extends w' w'' →
    ys = List.filter (g w'') l.
Proof.
  intros Hq Hs. induction l as [|x l IH]; intros w ys w' w''; simpl.
  - by intros [= <- <-].
  - unfold bind at 1. destruct (f x w) as [[y|?] w1] eqn:Ef; [|done].
    unfold bind at 1. destruct (filter_m f l w1) as [[ys'|?] w2] eqn:Em; [|done].
    intros [= <- <-] Hx.
    rewrite <- (IH _ _ _ _ Em Hx).
    rewrite <- (Hs _ _ _ _ w'' Ef); [done|].
    destruct (quiet_filter_m f l Hq _ _ _ Em) as [X2 _]. by etrans.
Qed.

Lemma any_map {X} (f : X → bool) l : any (map f l) = existsb f l.
Proof. induction l as [|x l IH]; simpl; [done|]. unfold any in IH. by rewrite <- IH. Qed.

End CacheFacts.


(** * The reverse law of the operations *)

(** C5: reversing a Create gives the Drop of the same entity, reversing a Drop
    the Create, reversing a Replace the Revert; reversing a Create twice gives
    the Create back; reversing a Revert is an error. *)
Theorem reverse_law (x : Entity) :
  reverse (CreateOp x) = Ok (DropOp x) ∧
  reverse (DropOp x) = Ok (CreateOp x) ∧
  reverse (ReplaceOp x) = Ok (RevertOp x) ∧
  reverse_twice (CreateOp x) = Ok (CreateOp x) ∧
  reverse (RevertOp x) = Raise NotImplementedError.
Proof. by split_and!. Qed.

(** * The registration check *)

Section Unique.
Context `{Backend}.

Lemma leb_le a b : String.leb (identity a) (identity b) = true ↔ identity_le a b.
Proof. unfold identity_le, String.le. by rewrite Is_true_true. Qed.

Lemma identity_le_trans a b c : identity_le a b → identity_le b c → identity_le a c.
Proof. unfold identity_le. intros. by etrans. Qed.

Lemma identity_le_antisym a b : identity_le a b → identity_le b a → identity a = identity b.
Proof. unfold identity_le. intros. by apply (anti_symm String.le). Qed.

Lemma insert_sorted_perm x l : insert_sorted x l ≡ₚ x :: l.
Proof.
  induction l as [|y l IH]; simpl; [done|].
  destruct (String.leb _ _); [done|]. rewrite IH. apply Permutation_swap.
Qed.

Lemma sort_by_identity_perm l : sort_by_identity l ≡ₚ l.
Proof.
  induction l as [|x l IH]; simpl; [done|].
  unfold sort_by_identity in IH. by rewrite insert_sorted_perm, IH.
Qed.

Lemma insert_sorted_sorted x l :
  StronglySorted identity_le l → StronglySorted identity_le (insert_sorted x l).
Proof.
  induction 1 as [|y l Hl IH Hy]; simpl.
  - by repeat constructor.
  - destruct (String.leb (identity x) (identity y)) eqn:E.
    + apply leb_le in E. constructor; [by constructor|].
      constructor; [done|]. eapply Forall_impl; [exact Hy|].
      intros z Hz. by eapply identity_le_trans.
    + assert (identity_le y x) as Hyx.
      { destruct (total String.le (identity x) (identity y)) as [Hxy|Hyx]; [|done].
        apply leb_le in Hxy. congruence. }
      constructor; [done|].
      rewrite insert_sorted_perm. by constructor.
Qed.

Lemma sort_by_identity_sorted l : StronglySorted identity_le (sort_by_identity l).
Proof.
  induction l as [|x l IH]; simpl; [constructor|]. by apply insert_sorted_sorted.
Qed.

Lemma adjacent_duplicate_cons ident z l :
  adjacent_duplicate ident l → adjacent_duplicate ident (z :: l).
Proof. intros (l1 & x & y & l2 & -> & ? & ?). by exists (z :: l1), x, y, l2. Qed.

Lemma filter_nonempty_elem (P : Entity → bool) l :
  0 < length (List.filter P l) → ∃ y, y ∈ l ∧ P y = true.
Proof.
  destruct (List.filter P l) as [|y ys] eqn:Ef; simpl; [lia|]. intros _.
  assert (In y (List.filter P l)) as Hin by (rewrite Ef; by left).
  apply filter_In in Hin as [Hin Hp]. exists y. by rewrite list_elem_of_In.
Qed.

(** In a sorted list two entries of one identity force two neighbours of it. *)
Lemma sorted_duplicate ident l :
  StronglySorted identity_le l →
  1 < length (List.filter (λ x, bool_decide (identity x = ident)) l) →
  adjacent_duplicate ident l.
Proof.
  induction 1 as [|x l Hl IH Hx]; [simpl; lia|].
  cbn [List.filter]. case_bool_decide as Hid.
  - cbn [length]. intros Hlen.
    destruct (filter_nonempty_elem (λ x, bool_decide (identity x = ident)) l)
      as (y & Hy & Hyi); [lia|].
    apply bool_decide_eq_true in Hyi.
    destruct l as [|z l]; [by apply elem_of_nil in Hy|].
    exists [], x, z, l. split_and!; [done..|].
    apply Forall_cons in Hx as [Hxz _].
    assert (identity_le z y) as Hzy.
    { apply elem_of_cons in Hy as [->|Hy]; [unfold identity_le; done|].
      apply StronglySorted_inv in Hl as [_ Hz].
      by eapply Forall_forall in Hz. }
    rewrite <- Hid. symmetry. apply identity_le_antisym; [done|].
    unfold identity_le in *. by rewrite Hid, <- Hyi.
  - intros Hlen. by apply adjacent_duplicate_cons, IH.
Qed.

Lemma groupby_head x l :
  ∃ g gs, groupby (x :: l) = (identity x, x :: g) :: gs.
Proof.
  revert x. induction l as [|y l IH]; intros x; simpl; [by eexists _, _|].
  destruct (IH y) as (g & gs & E). simpl in E. rewrite E.
  case_decide as Hd; [rewrite <- Hd|]; by eexists _, _.
Qed.

Lemma groupby_adjacent ident l :
  adjacent_duplicate ident l →
  ∃ g, (ident, g) ∈ groupby l ∧ 1 < length g.
Proof.
  intros (l1 & x & y & l2 & -> & Hx & Hy).
  induction l1 as [|z l1 IH]; simpl.
  - destruct (groupby_head y l2) as (g & gs & E). simpl in E. rewrite E.
    rewrite decide_True by congruence.
    exists (x :: y :: g). split; [rewrite <- Hy; left | simpl; lia].
  - destruct IH as (g & Hin & Hlen).
    destruct (groupby (l1 ++ x :: y :: l2)) as [|[k0 g0] gs]; [by apply elem_of_nil in Hin|].
    case_decide.
    + apply elem_of_cons in Hin as [[= -> ->]|Hin].
      * exists (z :: g0). split; [left | simpl; lia].
      * exists g. split; [by right | done].
    + exists g. split; [by right | done].
Qed.

Lemma check_unique_raises groups (w : World) :
  (∃ ident g, (ident, g) ∈ groups ∧ 1 < length g) →
  ∃ ident g, (ident, g) ∈ groups ∧ 1 < length g ∧
    check_unique groups w = (Raise (DuplicateRegistration (duplicate_message ident)), w).
Proof.
  induction groups as [|[k g0] groups IH]; simpl.
  - intros (? & ? & []%elem_of_nil & _).
  - intros (ident & g & Hin & Hlen). case_decide as Hd.
    + exists k, g0. split_and!; [left|done..].
    + apply elem_of_cons in Hin as [[= -> ->]|Hin]; [done|].
      destruct IH as (i' & g' & ? & ? & ?); [by eauto|].
      exists i', g'. split_and!; [by right|done..].
Qed.

Lemma filter_length_perm (P : Entity → bool) l1 l2 :
  l1 ≡ₚ l2 → length (List.filter P l1) = length (List.filter P l2).
Proof.
  induction 1; simpl; try done.
  - destruct (P x); simpl; congruence.
  - destruct (P x), (P y); simpl; congruence.
  - congruence.
Qed.

Lemma two_positions ident (l : list Entity) i j a b :
  i ≠ j → l !! i = Some a → l !! j = Some b →
  identity a = ident → identity b = ident →
  1 < length (List.filter (λ x, bool_decide (identity x = ident)) l).
Proof.
  revert i j. induction l as [|z l IH]; intros i j Hij Hi Hj Ha Hb; [done|].
  assert (∀ k c, l !! k = Some c → identity c = ident →
            0 < length (List.filter (λ x, bool_decide (identity x = ident)) l)) as Hone.
  { intros k c Hk Hc.
    assert (c ∈ List.filter (λ x, bool_decide (identity x = ident)) l) as Hin.
    { apply list_elem_of_In, filter_In. split.
      - apply list_elem_of_In. by eapply list_elem_of_lookup_2.
      - by apply bool_decide_eq_true. }
    destruct (List.filter _ l); [by apply elem_of_nil in Hin | simpl; lia]. }
  destruct i as [|i], j as [|j]; simpl in Hi, Hj; cbn [List.filter].
  - done.
  - injection Hi as ->. rewrite bool_decide_eq_true_2 by done. cbn [length].
    pose proof (Hone _ _ Hj Hb). lia.
  - injection Hj as ->. rewrite bool_decide_eq_true_2 by done. cbn [length].
    pose proof (Hone _ _ Hi Ha). lia.
  - assert (i ≠ j) as Hne by congruence.
    pose proof (IH i j Hne Hi Hj Ha Hb).
    destruct (bool_decide _); cbn [length]; lia.
Qed.

(** Two registrations of one identity stop [compare_registered_entities] at
    its first statement, in the world it was called in. *)
Lemma check_unique_world groups (w : World) : (check_unique groups w).2 = w.
Proof.
  induction groups as [|[k g] groups IH]; simpl; [done|]. by case_decide.
Qed.

Lemma duplicate_stops entities schemas exclude_schemas sqla_schemas i j a b (w : World) :
  i ≠ j → entities !! i = Some a → entities !! j = Some b →
  identity a = identity b →
  ∃ ident g, (ident, g) ∈ group_by entities ∧ 1 < length g ∧
    compare_registered_entities entities schemas exclude_schemas sqla_schemas w
    = (Raise (DuplicateRegistration (duplicate_message ident)), w).
Proof.
  intros Hij Hi Hj Hab.
  pose proof (two_positions (identity a) entities i j a b Hij Hi Hj eq_refl (eq_sym Hab)) as Hlen.
  rewrite (filter_length_perm _ _ _ (symmetry (sort_by_identity_perm entities))) in Hlen.
  apply sorted_duplicate in Hlen; [|apply sort_by_identity_sorted].
  apply groupby_adjacent in Hlen as (g & Hin & Hg).
  destruct (check_unique_raises (group_by entities) w) as (ident & g' & ? & ? & E);
    [by exists (identity a), g|].
  exists ident, g'. split_and!; [done..|].
  unfold compare_registered_entities, bind. by rewrite E.
Qed.

End Unique.

(** * Frames of the plan computation *)

Section PlanFrames.
Context `{Backend}.

Lemma quiet_try_resolve resolved entity : quiet (try_resolve resolved entity).
Proof.
  apply quiet_try_except; [|intros; apply quiet_ret].
  apply quiet_nested, quiet_simulate_entities, quiet_ret.
Qed.

Lemma quiet_resolve_pass entities resolved : quiet (resolve_pass entities resolved).
Proof.
  revert resolved. induction entities as [|e l IH]; intros resolved; simpl.
  - apply quiet_ret.
  - case_decide; [apply IH|].
    apply quiet_bind; [apply quiet_try_resolve | intros; apply IH].
Qed.

Lemma quiet_resolve_passes n entities resolved :
  quiet (resolve_passes n entities resolved).
Proof.
  revert resolved. induction n as [|n IH]; intros resolved; simpl.
  - apply quiet_ret.
  - apply quiet_bind; [apply quiet_resolve_pass | intros; apply IH].
Qed.

Lemma quiet_report_unresolved entities resolved :
  quiet (report_unresolved entities resolved).
Proof.
  induction entities as [|e l IH]; simpl; [apply quiet_ret|].
  case_decide; [|done].
  apply quiet_bind; [|intros; apply quiet_raise].
  apply quiet_nested, quiet_try_except; [|intros; apply quiet_raise].
  apply quiet_simulate_entities, quiet_ret.
Qed.

Lemma quiet_get_required_migration_op self : quiet (get_required_migration_op self).
Proof.
  apply quiet_bind; [apply quiet_sess_from_database|]. intros l.
  apply quiet_bind; [apply quiet_map_m, quiet_is_equal_definition|]. intros ids.
  apply quiet_bind; [apply quiet_map_m, quiet_is_equal_identity|]. intros sigs.
  destruct (any ids); [apply quiet_ret|]. destruct (any sigs); apply quiet_ret.
Qed.

Lemma framed_ops_append op : framed (ops_append op).
Proof.
  intros w r w' [= <- <-]. split; simpl; try done.
  - exists []. by rewrite app_nil_r.
  - by eexists.
Qed.

Lemma framed_diff_entity resolved local_entity :
  framed (diff_entity resolved local_entity).
Proof.
  apply framed_bind.
  - apply quiet_framed, quiet_simulate_entities, quiet_get_required_migration_op.
  - intros [op|]; [apply framed_ops_append | apply framed_ret].
Qed.

Lemma quiet_matches_local db_entity entities : quiet (matches_local db_entity entities).
Proof.
  induction entities as [|e l IH]; simpl; [apply quiet_ret|].
  apply quiet_bind; [apply quiet_is_equal_identity|].
  intros [|]; [apply quiet_ret | apply IH].
Qed.

Lemma framed_drop_deleted entities db_entity : framed (drop_deleted entities db_entity).
Proof.
  apply framed_bind; [apply quiet_framed, quiet_matches_local|].
  intros [|]; [apply framed_ret | apply framed_ops_append].
Qed.

Lemma framed_find_drops entities observed : framed (find_drops entities observed).
Proof.
  apply framed_for_each. intros sch. apply framed_for_each. intros cls.
  apply framed_bind; [apply quiet_framed, quiet_sess_from_database|].
  intros l. apply framed_for_each. intros x. apply framed_drop_deleted.
Qed.

Lemma framed_plan_body entities observed : framed (plan_body entities observed).
Proof.
  apply framed_bind; [apply quiet_framed, quiet_resolve_passes|]. intros resolved.
  apply framed_bind; [apply quiet_framed, quiet_report_unresolved|]. intros _.
  apply framed_bind; [apply framed_for_each; intros; apply framed_diff_entity|].
  intros _. apply framed_find_drops.
Qed.

Lemma rollback_to_hit h (w : World) pre s ss :
  saves w = pre ++ s :: ss → length ss = h → rollback_to h w = set_session s ss w.
Proof.
  intros Hs Hh. unfold rollback_to. rewrite Hs, length_app. simpl.
  rewrite decide_True by lia.
  replace (length pre + S (length ss) - S h) with (length pre) by lia.
  by rewrite drop_app_length.
Qed.

Lemma rollback_to_miss h (w : World) :
  length (saves w) ≤ h → rollback_to h w = w.
Proof. intros Hh. unfold rollback_to. by rewrite decide_False by lia. Qed.

(** [compare_registered_entities], once the registrations are unique, is
    [plan_body] bracketed by the connection and its parent transaction. *)
Lemma compare_registered_entities_unfold
    entities schemas exclude_schemas sqla_schemas w r w2 :
  (check_unique (group_by entities) w).1 = Ok tt →
  plan_body entities
    (observed_schemas entities schemas exclude_schemas sqla_schemas) (plan_start w)
  = (r, w2) →
  compare_registered_entities entities schemas exclude_schemas sqla_schemas w
  = (r, plan_finish w w2).
Proof.
  intros Hu Hb.
  pose proof (framed_plan_body _ _ _ _ _ Hb) as [HL HS _ _ _ _].
  simpl in HL, HS.
  unfold compare_registered_entities. unfold bind at 1.
  pose proof (check_unique_world (group_by entities) w) as Hw.
  destruct (check_unique (group_by entities) w) as [[[]|e] w']; simpl in Hu, Hw; [|done].
  subst w'.
  unfold with_connection, bind at 1, connection_begin, try_finally.
  unfold bind at 1. unfold begin_nested at 1.
  unfold plan_body, plan_start in Hb.
  match goal with |- context [bind (resolve entities) ?k ?w0] =>
    replace (bind (resolve entities) k w0) with (r, w2)
  end.
  2:{ rewrite <- Hb. f_equal. unfold set_session, log, logs. simpl.
      by rewrite <- !app_assoc. }
  unfold transaction_rollback. cbn [live saves log set_session].
  rewrite (rollback_to_hit _ (log CTransactionRollback w2) [live w] (live w) (saves w))
    by done.
  rewrite rollback_to_miss by done.
  f_equal. unfold plan_finish, set_session, log. simpl. by rewrite <- app_assoc.
Qed.

End PlanFrames.

(** * Simulated entities *)

Section Simulation.
Context `{Backend}.

Lemma issued_fail db pre e post db' :
  materialize db pre = Some db' →
  execute db' (to_sql_statement_create_or_replace e) = None →
  issued db (pre ++ e :: post) = pre ++ [e].
Proof.
  revert db. induction pre as [|x pre IH]; intros db; simpl.
  - intros [= <-] ->. done.
  - destruct (execute db _) as [db1|]; [|done]. intros Hm E. f_equal. by apply IH.
Qed.

(** C4: [simulate_entities] opens a nested transaction, sends the
    create-or-replace statements in the order of the list, runs the body in
    the world so obtained and rolls back whatever the body did, returning
    the body's own outcome; when a statement is rejected the body is not run,
    the statements after it are not sent, and the caller gets the server's
    error after the rollback has put the session back where it was.  On every
    path the rollback is the last call made. *)
Theorem simulate_entities_contract {A} (entities : list Entity) (body : M A) (w : World) :
  simulate_entities entities body w =
    match materialize (live w) entities with
    | Some db =>
      let inside :=
        set_session db (live w :: saves w)
          (logs (CBeginNested :: execute_calls entities) w) in
      ((body inside).1, (rollback (body inside).2).2)
    | None =>
      (Raise DatabaseError,
       logs (CBeginNested :: execute_calls (issued (live w) entities) ++ [CRollback]) w)
    end
  ∧ ∃ k, calls (simulate_entities entities body w).2 = k ++ [CRollback].
Proof.
  assert (simulate_entities entities body w =
    match materialize (live w) entities with
    | Some db =>
      let inside :=
        set_session db (live w :: saves w)
          (logs (CBeginNested :: execute_calls entities) w) in
      ((body inside).1, (rollback (body inside).2).2)
    | None =>
      (Raise DatabaseError,
       logs (CBeginNested :: execute_calls (issued (live w) entities) ++ [CRollback]) w)
    end) as E.
  { destruct (materialize (live w) entities) as [db|] eqn:Hm.
    - by apply simulate_entities_ok.
    - apply materialize_None in Hm as (pre & e & post & db & -> & Hpre & Hfail).
      rewrite (issued_fail _ _ _ _ _ Hpre Hfail).
      by apply (simulate_entities_fail pre e post body w db). }
  split; [done|]. rewrite E.
  destruct (materialize (live w) entities) as [db|]; simpl.
  - unfold rollback. simpl.
    match goal with |- context [saves ?w2] => exists (calls w2); by destruct (saves w2) end.
  - exists (calls w ++ CBeginNested :: execute_calls (issued (live w) entities)).
    by rewrite <- app_assoc.
Qed.

End Simulation.

(** * The plan is computed inside one transaction *)

Section ReadOnly.
Context `{Backend}.

(** C8: whatever way [compare_registered_entities] ends, the catalog and the
    stack of open transactions are as they were; either the call stopped at
    the registration check, untouched, or every call it made lies between
    the opening of the connection and of its parent transaction and the
    rollback of that transaction. *)
Theorem plan_is_read_only entities schemas exclude_schemas sqla_schemas (w : World) :
  let result := compare_registered_entities entities schemas exclude_schemas sqla_schemas w in
  live result.2 = live w ∧ saves result.2 = saves w ∧
  ((∃ msg, result = (Raise (DuplicateRegistration msg), w)) ∨
   ∃ inside,
     calls result.2
     = calls w ++ [CConnect; CBegin] ++ inside ++ [CTransactionRollback; CClose]
     ∧ Forall inner_call inside).
Proof.
  intros result. subst result.
  destruct (check_unique (group_by entities) w) as [[[]|e] w0] eqn:Eu.
  - destruct (plan_body entities
      (observed_schemas entities schemas exclude_schemas sqla_schemas) (plan_start w))
      as [r w2] eqn:Eb.
    rewrite (compare_registered_entities_unfold _ _ _ _ _ _ _ ltac:(by rewrite Eu) Eb).
    simpl. split_and!; [done..|]. right.
    destruct (framed_plan_body _ _ _ _ _ Eb) as [_ _ _ (k & K & F) _ _].
    simpl in K. exists (CBeginNested :: k). split; [|by constructor].
    rewrite K, <- !app_assoc. done.
  - pose proof (check_unique_world (group_by entities) w) as Hw.
    rewrite Eu in Hw. simpl in Hw. subst w0.
    unfold compare_registered_entities, bind. rewrite Eu. simpl.
    split_and!; [done..|]. left.
    clear -Eu. induction (group_by entities) as [|[k g] groups IH]; simpl in Eu; [done|].
    case_decide; [injection Eu as <-; by eexists | by apply IH].
Qed.

End ReadOnly.

(** * Duplicate registrations *)

Section Duplicates.
Context `{Backend}.

(** C7: when two entries of the registered batch have one identity,
    [compare_registered_entities] raises [DuplicateRegistration] and leaves
    the world exactly as it found it: no call to the database was made, and
    nothing of the schema discovery, the resolver or the diff has run. *)
Theorem duplicate_identity_is_rejected
    entities schemas exclude_schemas sqla_schemas i j a b (w : World) :
  i ≠ j → entities !! i = Some a → entities !! j = Some b →
  identity a = identity b →
  ∃ ident,
    compare_registered_entities entities schemas exclude_schemas sqla_schemas w
    = (Raise (DuplicateRegistration (duplicate_message ident)), w)
    ∧ calls (compare_registered_entities entities schemas exclude_schemas sqla_schemas w).2
      = calls w.
Proof.
  intros Hij Hi Hj Hab.
  destruct (duplicate_stops entities schemas exclude_schemas sqla_schemas
              i j a b w Hij Hi Hj Hab) as (ident & g & _ & _ & E).
  exists ident. by rewrite E.
Qed.


End Duplicates.

(** * The operation required for one entity *)

Section RequiredOp.
Context `{Backend}.

Lemma get_required_migration_op_rule self w r w' :
  get_required_migration_op self w = (Ok r, w') →
  r = required_op w' self (from_database (kind self) (live w) (schema self)).
Proof.
  unfold get_required_migration_op. unfold bind at 1. simpl.
  set (l := from_database _ _ _).
  unfold bind at 1.
  destruct (map_m (is_equal_definition self) l _) as [[ids|?] w1] eqn:E1; [|done].
  unfold bind at 1.
  destruct (map_m (is_equal_identity self) l w1) as [[sigs|?] w2] eqn:E2; [|done].
  intros E.
  assert (w' = w2) as -> by (destruct (any ids), (any sigs); by injection E).
  destruct (quiet_map_m _ _ (quiet_is_equal_identity self) _ _ _ E2) as [X2 _].
  rewrite (map_m_stable _ (λ w x, same_definition w self x) l
             (quiet_is_equal_definition self)
             (λ x w y w' w'', is_equal_definition_stable self x w y w' w'')
             _ _ _ w2 E1 X2) in E.
  rewrite (map_m_stable _ (λ w x, same_identity w self x) l
             (quiet_is_equal_identity self)
             (λ x w y w' w'', is_equal_identity_stable self x w y w' w'')
             _ _ _ w2 E2 (reflexivity _)) in E.
  rewrite !any_map in E. unfold required_op.
  destruct (existsb _ l); [by injection E|].
  destruct (existsb _ l); by injection E.
Qed.


(** The first live entity the cache holds an equal identity for. *)
Lemma get_database_definition_rule self w r w' :
  get_database_definition self w = (Ok r, w') →
  r = head (List.filter (same_identity w' self)
              (from_database (kind self) (live w) (schema self))).
Proof.
  unfold get_database_definition. unfold bind at 1. simpl.
  set (l := from_database _ _ _).
  unfold bind at 1.
  destruct (filter_m (is_equal_identity self) l _) as [[ms|?] w1] eqn:E1; [|done].
  intros E.
  assert (w' = w1) as -> by (destruct ms; by injection E).
  rewrite (filter_m_stable _ (λ w x, same_identity w self x) l
             (quiet_is_equal_identity self)
             (λ x w y w' w'', is_equal_identity_stable self x w y w' w'')
             _ _ _ w1 E1 (reflexivity _)) in E.
  destruct (List.filter _ l); by injection E.
Qed.

(** C10: [get_database_definition] answers [None] when no live entity of the
    target's class and schema has an equal identity-comparable and the first
    such entity otherwise; [render_revert_entity] uses the answer as it
    comes, so that on [None] it fails with an attribute error and renders
    nothing. *)
Theorem revert_of_a_missing_entity_fails op w r w' :
  get_database_definition (target op) (revert_lookup op w) = (Ok r, w') →
  r = head (List.filter (same_identity w' (target op))
              (from_database (kind (target op)) (live w) (schema (target op)))) ∧
  (render_revert_entity op w).1 =
    match r with
    | None => Raise AttributeError
    | Some db_target =>
      Ok (render_self_for_migration db_target false
          +:+ "op.replace_entity(" +:+ to_variable_name db_target +:+ ")")
    end.
Proof.
  intros E. split.
  - by apply get_database_definition_rule in E.
  - unfold render_revert_entity. unfold bind at 1, imports_add.
    unfold bind at 1, with_connection.
    fold (revert_lookup op w). rewrite E. by destruct r.
Qed.

End RequiredOp.

(** * The resolver *)

Section ResolverRuns.
Context `{Backend}.

Lemma try_resolve_run resolved entity w :
  ∃ w', try_resolve resolved entity w
        = (Ok (if materialize (live w) (resolved ++ [entity]) is Some _
               then resolved ++ [entity] else resolved), w')
        ∧ extends w w'.
Proof.
  destruct (try_resolve resolved entity w) as [r w'] eqn:E. exists w'.
  split; [|by apply (quiet_try_resolve resolved entity) in E as [? _]].
  f_equal. revert E.
  unfold try_resolve, try_except, nested, begin_nested.
  set (w0 := set_session _ _ _).
  destruct (materialize (live w) (resolved ++ [entity])) as [db|] eqn:Hm.
  - rewrite (simulate_entities_ok _ _ w0 db Hm). simpl. by intros [= <- _].
  - apply materialize_None in Hm as (pre & e & post & db & Hl & Hpre & Hfail).
    rewrite Hl.
    rewrite (simulate_entities_fail pre e post _ w0 db Hpre Hfail).
    by intros [= <- _].
Qed.

Lemma resolve_pass_run entities resolved w :
  ∃ w', resolve_pass entities resolved w
        = (Ok (placed_by_pass (live w) entities resolved), w')
        ∧ extends w w'.
Proof.
  revert resolved w. induction entities as [|e l IH]; intros resolved w; simpl.
  - exists w. split; [done|reflexivity].
  - case_decide; [apply IH|].
    destruct (try_resolve_run resolved e w) as (w1 & E1 & X1).
    unfold bind. rewrite E1.
    destruct (IH (if materialize (live w) (resolved ++ [e]) is Some _
                  then resolved ++ [e] else resolved) w1) as (w2 & E2 & X2).
    exists w2. rewrite E2, (ext_live _ _ X1).
    split; [by destruct (materialize _ _) | by etrans].
Qed.

Lemma resolve_passes_run n entities resolved w :
  ∃ w', resolve_passes n entities resolved w
        = (Ok (placed_by_passes (live w) n entities resolved), w')
        ∧ extends w w'.
Proof.
  revert resolved w. induction n as [|n IH]; intros resolved w; simpl.
  - exists w. split; [done|reflexivity].
  - destruct (resolve_pass_run entities resolved w) as (w1 & E1 & X1).
    unfold bind. rewrite E1.
    destruct (IH (placed_by_pass (live w) entities resolved) w1) as (w2 & E2 & X2).
    exists w2. rewrite E2, (ext_live _ _ X1).
    split; [done | by etrans].
Qed.

End ResolverRuns.

Section ResolverOrder.
Context `{Backend}.
Variable db0 : DB.
Variable entities : list Entity.
Variable deps : Entity → list Entity.

Hypothesis deps_closed : ∀ e d, e ∈ entities → d ∈ deps e → d ∈ entities.
Hypothesis acyclic : ∀ e, ¬ tc (depends_on entities deps) e e.
Hypothesis sufficient : ∀ pre db e,
  (∀ x, x ∈ pre → x ∈ entities) → e ∈ entities →
  materialize db0 pre = Some db → (∀ d, d ∈ deps e → d ∈ pre) →
  is_Some (execute db (to_sql_statement_create_or_replace e)).

Lemma placeable_snoc rc e db :
  placeable db0 entities rc → e ∈ entities → materialize db0 (rc ++ [e]) = Some db →
  placeable db0 entities (rc ++ [e]).
Proof.
  intros [Hin _] He Hm. split; [|by rewrite Hm].
  intros x [?| ->%list_elem_of_singleton]%elem_of_app; auto.
Qed.

Lemma pass_placeable l rc :
  (∀ x, x ∈ l → x ∈ entities) → placeable db0 entities rc → placeable db0 entities (placed_by_pass db0 l rc).
Proof.
  revert rc. induction l as [|e l IH]; intros rc Hl Hrc; simpl; [done|].
  assert (∀ x, x ∈ l → x ∈ entities) as Hl' by (intros; apply Hl; by right).
  case_decide; [by apply IH|].
  destruct (materialize db0 (rc ++ [e])) as [db|] eqn:Hm; [|by apply IH].
  apply IH; [done|]. eapply placeable_snoc; [done| |done]. apply Hl. by left.
Qed.

Lemma pass_keeps l rc x : x ∈ rc → x ∈ placed_by_pass db0 l rc.
Proof.
  revert rc. induction l as [|e l IH]; intros rc Hx; simpl; [done|].
  case_decide; [by apply IH|].
  destruct (materialize db0 (rc ++ [e])); apply IH; [|done].
  apply elem_of_app. by left.
Qed.

(** An entity whose dependencies are placed is placed by the next pass. *)
Lemma pass_places_ready l rc m :
  (∀ x, x ∈ l → x ∈ entities) → placeable db0 entities rc → m ∈ l →
  (∀ d, d ∈ deps m → d ∈ rc) → m ∈ placed_by_pass db0 l rc.
Proof.
  revert rc. induction l as [|e l IH]; intros rc Hl Hrc Hm Hd; simpl.
  { by apply elem_of_nil in Hm. }
  assert (∀ x, x ∈ l → x ∈ entities) as Hl' by (intros; apply Hl; by right).
  assert (e ∈ entities) as He by (apply Hl; by left).
  apply elem_of_cons in Hm as [->|Hm].
  - case_decide as Hin; [by apply pass_keeps|].
    destruct (materialize db0 (rc ++ [e])) as [db|] eqn:Hme.
    + apply pass_keeps, elem_of_app. right. by left.
    + exfalso. destruct Hrc as [Hsub [db Hdb]].
      rewrite materialize_app, Hdb in Hme. simpl in Hme.
      destruct (sufficient rc db e Hsub He Hdb Hd) as [db' Hx].
      by rewrite Hx in Hme.
  - case_decide as Hin; [by apply IH|].
    destruct (materialize db0 (rc ++ [e])) as [db|] eqn:Hme; [|by apply IH].
    apply IH; [done|by eapply placeable_snoc|done|].
    intros d Hdd. apply elem_of_app. left. by apply Hd.
Qed.

(** Without a cycle, following unplaced dependencies from an unplaced entity
    ends at an entity all of whose dependencies are placed. *)
Lemma chain_or_ready (rc : list Entity) n x :
  x ∈ entities → x ∉ rc →
  (∃ m, m ∈ entities ∧ (m ∉ rc) ∧ (∀ d, d ∈ deps m → d ∈ rc)) ∨
  (∃ c, length c = S n ∧ NoDup c ∧
        (∀ z, z ∈ c → z ∈ entities ∧ rtc (depends_on entities deps) x z)).
Proof.
  revert x. induction n as [|n IH]; intros x Hx Hrc.
  - right. exists [x]. split_and!; [done|apply NoDup_singleton|].
    by intros z ->%list_elem_of_singleton.
  - destruct (decide (Forall (λ d, d ∈ rc) (deps x))) as [Hall|Hsome].
    { left. exists x. split_and!; [done..|]. by apply Forall_forall. }
    apply not_Forall_Exists, Exists_exists in Hsome as (d & Hd & Hdrc); [|apply _].
    destruct (IH d (deps_closed _ _ Hx Hd) Hdrc) as [?|(c & Hlen & Hnd & Hc)]; [by left|].
    right. exists (x :: c). split_and!.
    + simpl. by rewrite Hlen.
    + apply NoDup_cons. split; [|done]. intros Hxc.
      apply (acyclic x). eapply tc_rtc_r; [apply tc_once; by split|].
      by apply Hc.
    + intros z [->|Hz]%elem_of_cons; [done|].
      split; [by apply Hc|]. eapply rtc_l; [by split|]. by apply Hc.
Qed.

Lemma exists_ready (rc : list Entity) e :
  e ∈ entities → e ∉ rc →
  ∃ m, m ∈ entities ∧ (m ∉ rc) ∧ (∀ d, d ∈ deps m → d ∈ rc).
Proof.
  intros He Hrc.
  destruct (chain_or_ready rc (length entities) e He Hrc) as [?|(c & Hlen & Hnd & Hc)];
    [done|].
  exfalso.
  assert (c ⊆+ entities) as Hsub
    by (apply NoDup_submseteq; [done|]; intros z Hz; by apply Hc).
  apply submseteq_length in Hsub. lia.
Qed.

Lemma filter_count_le (P Q : Entity → bool) l :
  (∀ x, x ∈ l → Q x = true → P x = true) →
  length (List.filter Q l) ≤ length (List.filter P l).
Proof.
  induction l as [|x l IH]; intros Himp; simpl; [done|].
  assert (length (List.filter Q l) ≤ length (List.filter P l)) as Hle
    by (apply IH; intros; apply Himp; [by right|done]).
  destruct (Q x) eqn:Eq.
  - rewrite (Himp x) by (done || left). simpl. lia.
  - destruct (P x); simpl; lia.
Qed.

Lemma filter_count_lt (P Q : Entity → bool) l m :
  (∀ x, x ∈ l → Q x = true → P x = true) →
  m ∈ l → P m = true → Q m = false →
  length (List.filter Q l) < length (List.filter P l).
Proof.
  induction l as [|x l IH]; intros Himp Hm Hp Hq; [by apply elem_of_nil in Hm|].
  assert (∀ y, y ∈ l → Q y = true → P y = true) as Himp'
    by (intros; apply Himp; [by right|done]).
  simpl. apply elem_of_cons in Hm as [<-|Hm].
  - rewrite Hp, Hq. simpl. pose proof (filter_count_le P Q l Himp'). lia.
  - specialize (IH Himp' Hm Hp Hq).
    destruct (Q x) eqn:Eq.
    + rewrite (Himp x) by (done || left). simpl. lia.
    + destruct (P x); simpl; lia.
Qed.

(** Every pass places at least one more entity as long as one is left. *)
Lemma pass_progress rc :
  placeable db0 entities rc →
  length (unresolved entities (placed_by_pass db0 entities rc)) ≤ length (unresolved entities rc) - 1.
Proof.
  intros Hrc. unfold unresolved.
  assert (∀ x, x ∈ entities →
            bool_decide (x ∉ placed_by_pass db0 entities rc) = true →
            bool_decide (x ∉ rc) = true) as Himp.
  { intros x _ Hx%bool_decide_eq_true. apply bool_decide_eq_true.
    intros Hin. by apply Hx, pass_keeps. }
  destruct (List.filter (λ e, bool_decide (e ∉ rc)) entities) as [|e0 l0] eqn:Ef.
  { pose proof (filter_count_le _ _ entities Himp) as Hle.
    rewrite Ef in Hle. simpl in *. lia. }
  assert (e0 ∈ entities ∧ e0 ∉ rc) as [He0 Hn0].
  { assert (In e0 (List.filter (λ e, bool_decide (e ∉ rc)) entities)) as Hin
      by (rewrite Ef; by left).
    apply filter_In in Hin as [Hin Hb]. apply bool_decide_eq_true in Hb.
    by rewrite list_elem_of_In. }
  destruct (exists_ready rc e0 He0 Hn0) as (m & Hm & Hmrc & Hready).
  pose proof (filter_count_lt (λ e, bool_decide (e ∉ rc))
                (λ e, bool_decide (e ∉ placed_by_pass db0 entities rc))
                entities m Himp Hm) as Hlt.
  rewrite Ef in Hlt. simpl in *.
  assert (length (List.filter (λ e, bool_decide (e ∉ placed_by_pass db0 entities rc))
                    entities) < S (length l0)); [|lia].
  apply Hlt; [by apply bool_decide_eq_true|].
  apply bool_decide_eq_false. intros Hnot. apply Hnot.
  by apply pass_places_ready.
Qed.

Lemma passes_placeable n rc :
  placeable db0 entities rc → placeable db0 entities (placed_by_passes db0 n entities rc).
Proof.
  revert rc. induction n as [|n IH]; intros rc Hrc; simpl; [done|].
  by apply IH, pass_placeable.
Qed.

Lemma passes_progress n rc :
  placeable db0 entities rc →
  length (unresolved entities (placed_by_passes db0 n entities rc)) ≤ length (unresolved entities rc) - n.
Proof.
  revert rc. induction n as [|n IH]; intros rc Hrc; simpl; [lia|].
  pose proof (pass_progress rc Hrc).
  pose proof (IH _ (pass_placeable entities rc (λ x Hx, Hx) Hrc)). lia.
Qed.

Lemma placeable_nil : placeable db0 entities [].
Proof. split; [by intros x ?%elem_of_nil | by eexists]. Qed.

(** [N = len(entities)] passes place the whole batch. *)
Lemma passes_complete e :
  e ∈ entities → e ∈ placed_by_passes db0 (length entities) entities [].
Proof.
  intros He.
  pose proof (passes_progress (length entities) [] placeable_nil) as Hle.
  assert (length (unresolved entities []) ≤ length entities) as Hu.
  { apply List.filter_length_le. }
  destruct (decide (e ∈ placed_by_passes db0 (length entities) entities []))
    as [|Hn]; [done|exfalso].
  assert (In e (unresolved entities (placed_by_passes db0 (length entities) entities []))) as Hin.
  { apply filter_In. split; [by apply list_elem_of_In | by apply bool_decide_eq_true]. }
  destruct (unresolved entities _); [done | simpl in *; lia].
Qed.

(** What forces [a] before [b]: [b]'s statement is rejected wherever [a] has
    not been created by the simulation. *)
Lemma placeable_order rc a b :
  placeable db0 entities rc → b ∈ rc →
  (∀ pre db, (∀ x, x ∈ pre → x ∈ entities) → materialize db0 pre = Some db →
     is_Some (execute db (to_sql_statement_create_or_replace b)) → a ∈ pre) →
  precedes a b rc.
Proof.
  intros [Hsub [db Hdb]] Hb Hnec.
  apply list_elem_of_split in Hb as (pre & post & ->).
  rewrite materialize_app in Hdb.
  destruct (materialize db0 pre) as [db1|] eqn:Hpre; [|done]. simpl in Hdb.
  destruct (execute db1 _) as [db2|] eqn:Hx; [|done].
  assert (a ∈ pre) as Ha.
  { apply (Hnec pre db1); [|done|by rewrite Hx].
    intros x Hxin. apply Hsub, elem_of_app. by left. }
  apply list_elem_of_split in Ha as (l1 & l2 & ->).
  exists l1, l2, post. by rewrite <- app_assoc.
Qed.

End ResolverOrder.

Section ResolverTheorems.
Context `{Backend}.


(** The loop after the resolver always raises for the first entity that was
    not placed. *)
Lemma report_unresolved_first entities resolved entity w :
  find (λ e, bool_decide (e ∉ resolved)) entities = Some entity →
  (report_unresolved entities resolved w).1 =
    match materialize (live w) (resolved ++ [entity]) with
    | None => Raise (FailedToGenerateComparable (failed_message entity))
    | Some _ => Raise UnreachableException
    end.
Proof.
  induction entities as [|e l IH]; simpl; [done|].
  destruct (decide (e ∉ resolved)) as [Hin|Hin].
  - rewrite bool_decide_eq_true_2 by done. intros [= ->].
    unfold bind, nested, begin_nested, try_except.
    set (w0 := set_session _ _ _).
    destruct (materialize (live w) (resolved ++ [entity])) as [db|] eqn:Hm.
    + by rewrite (simulate_entities_ok _ _ w0 db Hm).
    + apply materialize_None in Hm as (pre & e & post & db & Hl & Hpre & Hfail).
      rewrite Hl.
      by rewrite (simulate_entities_fail pre e post _ w0 db Hpre Hfail).
  - rewrite bool_decide_eq_false_2 by done. apply IH.
Qed.


End ResolverTheorems.

(** * The catalog: facts and worked cases *)

Section CatalogFacts.
Variable needs : Entity → list string.
Let B : Backend := Catalog.backend needs.
Existing Instance B.

Lemma catalog_present_step i (db : list Entity) e :
  Catalog.present i db = true →
  Catalog.present i
    (e :: List.filter (λ x, bool_decide (identity x ≠ identity e)) db) = true.
Proof.
  unfold Catalog.present. rewrite !bool_decide_eq_true.
  intros (y & -> & Hy)%list_elem_of_fmap.
  destruct (decide (identity y = identity e)) as [->|Hne]; [left|].
  right. apply list_elem_of_fmap. exists y. split; [done|].
  apply list_elem_of_In, filter_In. split; [by apply list_elem_of_In|].
  by apply bool_decide_eq_true.
Qed.

Lemma catalog_present_kept i db pre db' :
  materialize db pre = Some db' →
  Catalog.present i db = true → Catalog.present i db' = true.
Proof.
  revert db. induction pre as [|e pre IH]; intros db; simpl; [by intros [= <-]|].
  destruct (forallb _ _); [|done].
  intros Hm Hp. eapply IH; [done|]. by apply catalog_present_step.
Qed.

(** Whatever a simulation has created is in the catalog it sees. *)
Lemma catalog_created_present db pre db' x :
  materialize db pre = Some db' → x ∈ pre → Catalog.present (identity x) db' = true.
Proof.
  revert db. induction pre as [|e pre IH]; intros db; simpl.
  { by intros _ ?%elem_of_nil. }
  destruct (forallb _ _); [|done].
  intros Hm [->|Hx]%elem_of_cons; [|by eapply IH].
  eapply catalog_present_kept; [done|].
  apply bool_decide_eq_true. left.
Qed.

(** Whatever the catalog holds was there before or was created. *)
Lemma catalog_origin db pre db' y :
  materialize db pre = Some db' → y ∈ db' → y ∈ db ∨ y ∈ pre.
Proof.
  revert db. induction pre as [|e pre IH]; intros db; simpl.
  { intros [= <-]. by left. }
  destruct (forallb _ _); [|done].
  intros Hm Hy. destruct (IH _ Hm Hy) as [Hy1|Hy1]; [|right; by right].
  apply elem_of_cons in Hy1 as [->|Hy1]; [right; left|].
  left. apply list_elem_of_In, filter_In in Hy1 as [Hy1 _]. by apply list_elem_of_In.
Qed.

End CatalogFacts.

Lemma ranked_acyclic {X} (R : relation X) (rank : X → nat) :
  (∀ x y, R x y → rank y < rank x) → ∀ e, ¬ tc R e e.
Proof.
  intros Hr.
  assert (∀ x y, tc R x y → rank y < rank x) as Htc.
  { induction 1 as [x y Hxy|x y z Hxy _ IH]; [by apply Hr|].
    pose proof (Hr _ _ Hxy). lia. }
  intros e He. apply Htc in He. lia.
Qed.

Section WorkedCases.
Import Catalog.

(** Two registrations of the view [v1]. *)
Lemma duplicate_identity_is_rejected_witness :
  let w := empty_world views_need [] in
  0 ≠ 1 ∧ [v1; v1] !! 0 = Some v1 ∧ [v1; v1] !! 1 = Some v1 ∧
  identity v1 = identity v1 ∧
  ∃ ident,
    compare_registered_entities [v1; v1] None None None w
    = (Raise (DuplicateRegistration (duplicate_message ident)), w)
    ∧ calls (compare_registered_entities [v1; v1] None None None w).2 = calls w.
Proof.
  intros w. split_and!; [lia|reflexivity..|].
  apply (duplicate_identity_is_rejected [v1; v1] None None None 0 1 v1 v1 w);
    [lia|reflexivity..].
Defined.


(** Reverting [v1] when the catalog has no [v1]. *)
Lemma revert_of_a_missing_entity_fails_witness :
  let w := empty_world views_need [] in
  let op := RevertOp v1 in
  let run := get_database_definition (target op) (revert_lookup op w) in
  run = (Ok None, run.2) ∧
  (None = head (List.filter (same_identity run.2 (target op))
                  (from_database (kind (target op)) (live w) (schema (target op)))) ∧
   (render_revert_entity op w).1 = Raise AttributeError).
Proof.
  intros w op run. split; [vm_compute; reflexivity|].
  apply (revert_of_a_missing_entity_fails op w None run.2).
  vm_compute; reflexivity.
Defined.




End WorkedCases.

Section ViewsCase.
Import Catalog.
Let B : Backend := backend views_need.
Existing Instance B.

Lemma views_in_batch (x : Entity) : x ∈ [v1; v2] → x = v1 ∨ x = v2.
Proof.
  intros [->|[->|[]%elem_of_nil]%elem_of_cons]%elem_of_cons; auto.
Qed.

Lemma views_closed e d : e ∈ [v1; v2] → d ∈ views_deps e → d ∈ [v1; v2].
Proof.
  intros [->| ->]%views_in_batch; vm_compute.
  - by intros ?%elem_of_nil.
  - intros ->%list_elem_of_singleton. left.
Qed.

Lemma views_acyclic e : ¬ tc (depends_on [v1; v2] views_deps) e e.
Proof.
  apply (ranked_acyclic _ (λ x, if decide (signature x = "v2") then 1 else 0)).
  intros x y [[->| ->]%views_in_batch Hy]; vm_compute in Hy.
  - by apply elem_of_nil in Hy.
  - apply list_elem_of_singleton in Hy as ->. vm_compute. lia.
Qed.

Lemma views_sufficient pre (db : list Entity) e :
  (∀ x, x ∈ pre → x ∈ [v1; v2]) → e ∈ [v1; v2] →
  materialize (H := B) [] pre = Some db → (∀ d, d ∈ views_deps e → d ∈ pre) →
  is_Some (execute (Backend := B) db (to_sql_statement_create_or_replace e)).
Proof.
  intros _ [->| ->]%views_in_batch Hm Hd.
  - by eexists.
  - assert (present "public.v1" db = true) as Hp.
    { apply (catalog_created_present views_need [] pre db v1 Hm).
      apply Hd. vm_compute. left. }
    simpl. unfold views_need. simpl. rewrite Hp. by eexists.
Qed.

Lemma views_necessary pre (db : list Entity) :
  (∀ x, x ∈ pre → x ∈ [v1; v2]) →
  materialize (H := B) [] pre = Some db →
  is_Some (execute (Backend := B) db (to_sql_statement_create_or_replace v2)) →
  v1 ∈ pre.
Proof.
  intros Hpre Hm. simpl. unfold views_need. simpl.
  destruct (present "public.v1" db) eqn:Hp; [|by intros [? [=]]]. intros _.
  apply bool_decide_eq_true, list_elem_of_fmap in Hp as (y & Hy & Hin).
  destruct (catalog_origin views_need [] pre db y Hm Hin) as [[]%elem_of_nil|Hyp].
  destruct (views_in_batch y (Hpre y Hyp)) as [->| ->]; [done|].
  by vm_compute in Hy.
Qed.


End ViewsCase.

Section LostDrop.
Import Catalog.

(** C6 on a function, a view calling it and an orphan function: the batch
    resolves, and alone it is planned without error; with the orphan
    [f_old] live, which no registered entity matches, the search for drops
    asks for the identity comparable of the view, simulates the view without
    the function it calls, and the call ends in the server's error with no
    Drop of [f_old] among the operations. *)
Lemma orphan_drop_is_lost :
  let w := empty_world fn_need [f_old] in
  let run := compare_registered_entities [fn; view_of_fn] None None None w in
  observed_schemas [fn; view_of_fn] None None None = ["public"] ∧
  from_database "PGFunction" (live w) "public" = [f_old] ∧
  (resolve [fn; view_of_fn] (plan_start w)).1 = Ok [fn; view_of_fn] ∧
  (compare_registered_entities [fn; view_of_fn] None None None
     (empty_world fn_need [])).1 = Ok tt ∧
  run.1 = Raise DatabaseError ∧
  ops run.2 = [CreateOp fn; CreateOp view_of_fn].
Proof. intros w run. split_and!; vm_compute; reflexivity. Qed.

End LostDrop.

(** * The search for drops *)

Section Drops.
Context `{Backend}.

Lemma matches_local_stable db_entity entities w b w' w'' :
  matches_local db_entity entities w = (Ok b, w') → extends w' w'' →
  b = existsb (same_identity w'' db_entity) entities.
Proof.
  revert w. induction entities as [|e l IH]; intros w; simpl.
  - by intros [= <- <-].
  - unfold bind at 1.
    destruct (is_equal_identity db_entity e w) as [[eq|?] w1] eqn:E1; [|done].
    destruct eq.
    + intros [= <- <-] Hx.
      by rewrite <- (is_equal_identity_stable _ _ _ _ _ w'' E1 Hx).
    + intros E Hx.
      destruct (quiet_matches_local db_entity l _ _ _ E) as [X1 _].
      rewrite <- (is_equal_identity_stable _ _ _ _ _ w'' E1 (transitivity X1 Hx)).
      simpl. by eapply IH.
Qed.

Lemma drop_deleted_appends entities db_entity w w' w'' :
  drop_deleted entities db_entity w = (Ok tt, w') → extends w' w'' →
  ops w' = ops w ++ (if orphan w'' entities db_entity then [DropOp db_entity] else []).
Proof.
  unfold drop_deleted. unfold bind at 1.
  destruct (matches_local db_entity entities w) as [[b|?] w1] eqn:E1; [|done].
  destruct (quiet_matches_local db_entity entities _ _ _ E1) as [_ O1].
  destruct b.
  - intros [= <-] Hx. unfold orphan.
    rewrite <- (matches_local_stable _ _ _ _ _ w'' E1 Hx). simpl.
    by rewrite app_nil_r.
  - unfold ops_append. intros [= <-] Hx. unfold orphan.
    assert (extends w1 w'') as Hx1.
    { etrans; [|exact Hx]. by apply (framed_ops_append (DropOp db_entity) w1 (Ok tt)). }
    rewrite <- (matches_local_stable _ _ _ _ _ w'' E1 Hx1). simpl. by rewrite O1.
Qed.

(** A loop whose rounds append operations that can be read off the final
    cache appends their concatenation. *)
Lemma for_each_appends {X} (f : X → M unit) (g : World → X → list Op) (db : DB) l :
  (∀ x, framed (f x)) →
  (∀ x w w' w'', live w = db → f x w = (Ok tt, w') → extends w' w'' →
     ops w' = ops w ++ g w'' x) →
  ∀ w w' w'', live w = db → for_each l f w = (Ok tt, w') → extends w' w'' →
    ops w' = ops w ++ flat_map (g w'') l.
Proof.
  intros Hf Hg. induction l as [|x l IH]; intros w w' w'' Hdb; simpl.
  - intros [= <-] _. by rewrite app_nil_r.
  - unfold bind at 1. destruct (f x w) as [[[]|?] w1] eqn:E1; [|done].
    intros E Hx.
    pose proof (framed_for_each l f Hf _ _ _ E) as X1.
    pose proof (Hf _ _ _ _ E1) as X0.
    rewrite (IH w1 w' w''); [|by rewrite (ext_live _ _ X0)|done|done].
    rewrite (Hg x w w1 w'' Hdb E1 (transitivity X1 Hx)).
    by rewrite <- app_assoc.
Qed.

Lemma flat_map_if {X Y} (P : X → bool) (h : X → Y) l :
  flat_map (λ x, if P x then [h x] else []) l = map h (List.filter P l).
Proof.
  induction l as [|x l IH]; simpl; [done|]. rewrite IH. by destruct (P x).
Qed.

Lemma find_drops_appends entities observed w w' w'' :
  find_drops entities observed w = (Ok tt, w') → extends w' w'' →
  ops w' = ops w ++ expected_drops w'' entities observed (live w).
Proof.
  intros E Hx. unfold find_drops in E. unfold expected_drops.
  refine (for_each_appends _
    (λ w'' sch, flat_map (λ cls, map DropOp
       (List.filter (orphan w'' entities) (from_database cls (live w) sch))) subclasses)
    (live w) observed _ _ w w' w'' eq_refl E Hx).
  - intros sch. apply framed_for_each. intros cls.
    apply framed_bind; [apply quiet_framed, quiet_sess_from_database|].
    intros l. apply framed_for_each. intros x. apply framed_drop_deleted.
  - clear. intros sch w0 w1 w2 Hdb E Hx.
    refine (for_each_appends _
      (λ w'' cls, map DropOp
         (List.filter (orphan w'' entities) (from_database cls (live w) sch)))
      (live w) subclasses _ _ w0 w1 w2 Hdb E Hx).
    + intros cls.
      apply framed_bind; [apply quiet_framed, quiet_sess_from_database|].
      intros l. apply framed_for_each. intros x. apply framed_drop_deleted.
    + clear. intros cls w0 w1 w2 Hdb. unfold bind at 1, sess_from_database.
      rewrite Hdb. intros E Hx.
      rewrite <- flat_map_if.
      exact (for_each_appends (drop_deleted entities)
        (λ w'' x, if orphan w'' entities x then [DropOp x] else [])
        (live w) (from_database cls (live w) sch)
        (framed_drop_deleted entities)
        (λ x wa wb wc _ Ea Hc, drop_deleted_appends entities x wa wb wc Ea Hc)
        (log (CFromDatabase cls sch) w0) w1 w2 Hdb E Hx).
Qed.

Lemma diff_entity_appends resolved local_entity w w' :
  diff_entity resolved local_entity w = (Ok tt, w') →
  ∃ o, ops w' = ops w ++ o ∧ Forall is_upgrade o.
Proof.
  unfold diff_entity. unfold bind at 1.
  set (l := take_while _ _).
  destruct (simulate_entities l (get_required_migration_op local_entity) w)
    as [[r|?] w1] eqn:E1; [|done].
  destruct (quiet_simulate_entities l _
              (quiet_get_required_migration_op local_entity) _ _ _ E1) as [_ O1].
  assert (r = None ∨ r = Some (ReplaceOp local_entity)
          ∨ r = Some (CreateOp local_entity)) as Hr.
  { destruct (materialize (live w) l) as [db|] eqn:Hm.
    - rewrite (simulate_entities_ok _ _ _ _ Hm) in E1. simpl in E1.
      destruct (get_required_migration_op local_entity _) as [r2 w2] eqn:E2.
      simpl in E1. injection E1 as -> _.
      apply get_required_migration_op_rule in E2. rewrite E2. unfold required_op.
      destruct (existsb _ _); [by left|]. destruct (existsb _ _); auto.
    - apply materialize_None in Hm as (pre & e & post & db & Hl & Hpre & Hfail).
      rewrite Hl, (simulate_entities_fail pre e post _ w db Hpre Hfail) in E1. done. }
  destruct Hr as [->|[->| ->]].
  - intros [= <-]. exists []. by rewrite app_nil_r.
  - intros [= <-]. simpl. rewrite O1. eexists. split; [done|]. by repeat constructor.
  - intros [= <-]. simpl. rewrite O1. eexists. split; [done|]. by repeat constructor.
Qed.

Lemma diff_loop_appends resolved l w w' :
  for_each l (diff_entity resolved) w = (Ok tt, w') →
  ∃ o, ops w' = ops w ++ o ∧ Forall is_upgrade o.
Proof.
  revert w. induction l as [|x l IH]; intros w; simpl.
  - intros [= <-]. exists []. by rewrite app_nil_r.
  - unfold bind at 1.
    destruct (diff_entity resolved x w) as [[[]|?] w1] eqn:E1; [|done].
    intros (o2 & O2 & F2)%IH.
    destruct (diff_entity_appends _ _ _ _ E1) as (o1 & O1 & F1).
    exists (o1 ++ o2). rewrite O2, O1, <- app_assoc. split; [done|].
    by apply Forall_app.
Qed.

(** When [compare_registered_entities] returns normally, what it appended to
    [upgrade_ops.ops] is first creates and replaces, then the drops of all
    the live entities of the observed schemas that no registered entity
    matches in identity. *)
Lemma drops_follow_upgrades entities schemas exclude_schemas sqla_schemas w w' :
  compare_registered_entities entities schemas exclude_schemas sqla_schemas w
  = (Ok tt, w') →
  ∃ upgrades,
    ops w' = ops w ++ upgrades
             ++ expected_drops w' entities
                  (observed_schemas entities schemas exclude_schemas sqla_schemas)
                  (live w)
    ∧ Forall is_upgrade upgrades.
Proof.
  intros E.
  destruct (check_unique (group_by entities) w) as [[[]|e] w0] eqn:Eu.
  2:{ unfold compare_registered_entities, bind in E. by rewrite Eu in E. }
  set (observed := observed_schemas _ _ _ _) in *.
  destruct (plan_body entities observed (plan_start w)) as [r w2] eqn:Eb.
  rewrite (compare_registered_entities_unfold _ _ _ _ _ _ _ ltac:(by rewrite Eu) Eb) in E.
  injection E as -> <-.
  unfold plan_body in Eb. unfold bind at 1 in Eb.
  destruct (resolve entities (plan_start w)) as [[resolved|?] w3] eqn:E3; [|done].
  destruct (quiet_resolve_passes _ _ _ _ _ _ E3) as [X3 O3].
  unfold bind at 1 in Eb.
  destruct (report_unresolved entities resolved w3) as [[[]|?] w4] eqn:E4; [|done].
  destruct (quiet_report_unresolved _ _ _ _ _ E4) as [X4 O4].
  unfold bind at 1 in Eb.
  destruct (for_each resolved (diff_entity resolved) w4) as [[[]|?] w5] eqn:E5; [|done].
  destruct (diff_loop_appends _ _ _ _ E5) as (o & O5 & F5).
  pose proof (framed_for_each resolved (diff_entity resolved)
                (framed_diff_entity resolved) _ _ _ E5) as X5.
  exists o. split; [|done].
  change (ops w2 = ops w ++ o ++ expected_drops w2 entities observed (live w)).
  rewrite (find_drops_appends entities observed w5 w2 w2 Eb (reflexivity _)).
  rewrite O5, O4, O3, <- app_assoc.
  rewrite (ext_live _ _ X5), (ext_live _ _ X4), (ext_live _ _ X3). done.
Qed.

End Drops.

(** * Further properties of the registration check *)

Section UniqueMore.
Context `{Backend}.

Lemma count_identity_cons ident x (l : list Entity) :
  length (List.filter (λ y, bool_decide (identity y = ident)) l)
  ≤ length (List.filter (λ y, bool_decide (identity y = ident)) (x :: l)).
Proof. cbn [List.filter]. destruct (bool_decide _); cbn [length]; lia. Qed.

(** A batch has an identity registered twice, or its identities are pairwise
    distinct. *)
Lemma duplicate_or_distinct (l : list Entity) :
  (∃ ident, 1 < length (List.filter (λ y, bool_decide (identity y = ident)) l))
  ∨ NoDup (map identity l).
Proof.
  induction l as [|x l IH]; [right; constructor|].
  destruct IH as [[ident Hlen]|Hnd].
  { left. exists ident. pose proof (count_identity_cons ident x l). lia. }
  destruct (decide (identity x ∈ map identity l)) as [Hin|Hnin].
  - left. exists (identity x). cbn [List.filter].
    rewrite bool_decide_eq_true_2 by done. cbn [length].
    apply list_elem_of_fmap in Hin as (y & Hy & Hin).
    assert (In y (List.filter (λ y, bool_decide (identity y = identity x)) l)) as Hf.
    { apply filter_In. split; [by apply list_elem_of_In | by apply bool_decide_eq_true]. }
    destruct (List.filter _ l); [done | cbn [length]; lia].
  - right. simpl. by constructor.
Qed.

Lemma groupby_first k g gs (l : list Entity) :
  groupby l = (k, g) :: gs → ∃ y l', l = y :: l' ∧ identity y = k.
Proof.
  destruct l as [|y l']; [done|].
  destruct (groupby_head y l') as (g' & gs' & E). rewrite E.
  intros [= <- _ _]. by exists y, l'.
Qed.

(** A group of more than one entity comes from two neighbours of one
    identity. *)
Lemma groupby_long k g (l : list Entity) :
  (k, g) ∈ groupby l → 1 < length g → adjacent_duplicate k l.
Proof.
  revert k g. induction l as [|x l IH]; intros k g; simpl.
  { by intros ?%elem_of_nil. }
  destruct (groupby l) as [|[k0 g0] gs] eqn:Eg.
  { intros [= -> ->]%list_elem_of_singleton. simpl. lia. }
  destruct (groupby_first _ _ _ _ Eg) as (y & l' & -> & Hy).
  case_decide as Hx.
  - intros [[= -> ->]|Hin]%elem_of_cons Hlen.
    + exists [], x, y, l'. by split_and!.
    + apply adjacent_duplicate_cons, (IH k g); [by right | done].
  - intros [[= -> ->]|Hin]%elem_of_cons Hlen; [simpl in Hlen; lia|].
    by apply adjacent_duplicate_cons, (IH k g).
Qed.

Lemma adjacent_duplicate_not_distinct k (l : list Entity) :
  adjacent_duplicate k l → ¬ NoDup (map identity l).
Proof.
  intros (l1 & x & y & l2 & -> & Hx & Hy) Hnd.
  rewrite map_app in Hnd. simpl in Hnd.
  apply NoDup_app in Hnd as (_ & _ & Hnd).
  apply NoDup_cons in Hnd as [Hnin _]. apply Hnin. rewrite Hx, <- Hy. left.
Qed.

Lemma check_unique_passes groups (w : World) :
  (∀ k g, (k, g) ∈ groups → length g ≤ 1) → check_unique groups w = (Ok tt, w).
Proof.
  induction groups as [|[k g] groups IH]; intros Hg; simpl; [done|].
  rewrite decide_False by (specialize (Hg k g ltac:(left)); lia).
  apply IH. intros k' g' Hin. apply (Hg k' g'). by right.
Qed.

(** The registration check lets a batch through exactly when the identities
    of its entities are pairwise distinct. *)
Theorem registration_check_accepts_distinct entities (w : World) :
  (check_unique (group_by entities) w).1 = Ok tt ↔ NoDup (map identity entities).
Proof.
  split.
  - intros Hok. destruct (duplicate_or_distinct entities) as [[ident Hlen]|]; [|done].
    exfalso.
    rewrite (filter_length_perm _ _ _ (symmetry (sort_by_identity_perm entities))) in Hlen.
    apply sorted_duplicate in Hlen; [|apply sort_by_identity_sorted].
    apply groupby_adjacent in Hlen as (g & Hin & Hg).
    destruct (check_unique_raises (group_by entities) w) as (i' & g' & _ & _ & E);
      [by exists ident, g|].
    by rewrite E in Hok.
  - intros Hnd. rewrite check_unique_passes; [done|].
    intros k g Hin. destruct (decide (length g ≤ 1)) as [|Hlong]; [done|exfalso].
    apply (adjacent_duplicate_not_distinct k (sort_by_identity entities)).
    + apply (groupby_long k g); [done | lia].
    + by rewrite (sort_by_identity_perm entities).
Qed.

Lemma filter_keeps_distinct {X} (f : X → bool) (l : list X) :
  NoDup l → NoDup (List.filter f l).
Proof.
  induction 1 as [|x l Hx Hl IH]; simpl; [constructor|].
  destruct (f x); [|done]. constructor; [|done].
  rewrite list_elem_of_In, filter_In, <- list_elem_of_In. by intros [? _].
Qed.

(** The schemas searched for drops: each once, and exactly those given by
    the caller, by the SQLAlchemy metadata or by a registered entity that
    are not excluded. *)
Theorem observed_schemas_are_the_unexcluded entities schemas exclude_schemas sqla_schemas :
  NoDup (observed_schemas entities schemas exclude_schemas sqla_schemas) ∧
  ∀ x, x ∈ observed_schemas entities schemas exclude_schemas sqla_schemas ↔
       (x ∈ default [] schemas ∨ Some x ∈ default [] sqla_schemas
        ∨ x ∈ map schema entities)
       ∧ (x ∉ default [] exclude_schemas).
Proof.
  unfold observed_schemas. split.
  - apply filter_keeps_distinct, NoDup_elements.
  - intros x. rewrite list_elem_of_In, filter_In, <- list_elem_of_In.
    rewrite bool_decide_eq_true, elem_of_elements, elem_of_list_to_set.
    rewrite !elem_of_app, list_elem_of_omap.
    split.
    + intros [[[Hs|(y & Hy & Hid)]|He] Hx]; (split; [|done]); auto.
      simpl in Hid. subst y. auto.
    + intros [[Hs|[Hq|He]] Hx]; (split; [|done]); auto.
      left. right. by exists (Some x).
Qed.

End UniqueMore.

(** * What the resolver always returns *)

Section ResolverInvariants.
Context `{Backend}.
Variable db : DB.

Lemma pass_appends l rc : ∃ added, placed_by_pass db l rc = rc ++ added.
Proof.
  revert rc. induction l as [|e l IH]; intros rc; simpl.
  - exists []. by rewrite app_nil_r.
  - case_decide; [apply IH|].
    destruct (materialize db (rc ++ [e])); [|apply IH].
    destruct (IH (rc ++ [e])) as [added ->]. exists (e :: added).
    by rewrite <- app_assoc.
Qed.

Lemma pass_distinct l rc : NoDup rc → NoDup (placed_by_pass db l rc).
Proof.
  revert rc. induction l as [|e l IH]; intros rc Hnd; simpl; [done|].
  case_decide as Hin; [by apply IH|].
  destruct (materialize db (rc ++ [e])); [|by apply IH].
  apply IH, NoDup_app. split_and!; [done| |apply NoDup_singleton].
  by intros x Hx ->%list_elem_of_singleton.
Qed.

Lemma pass_within l rc x : x ∈ placed_by_pass db l rc → x ∈ rc ∨ x ∈ l.
Proof.
  revert rc. induction l as [|e l IH]; intros rc; simpl; [by left|].
  case_decide.
  { intros [?|?]%IH; [by left | right; by right]. }
  destruct (materialize db (rc ++ [e])).
  - intros [[?| ->%list_elem_of_singleton]%elem_of_app|?]%IH;
      [by left | right; left | right; by right].
  - intros [?|?]%IH; [by left | right; by right].
Qed.

Lemma pass_materializable l rc :
  is_Some (materialize db rc) → is_Some (materialize db (placed_by_pass db l rc)).
Proof.
  revert rc. induction l as [|e l IH]; intros rc Hrc; simpl; [done|].
  case_decide; [by apply IH|].
  destruct (materialize db (rc ++ [e])) eqn:Hm; [|by apply IH].
  apply IH. by rewrite Hm.
Qed.

(** A pass that places nothing has seen every trial fail. *)
Lemma pass_stuck l rc e :
  placed_by_pass db l rc = rc → e ∈ l → e ∉ rc → materialize db (rc ++ [e]) = None.
Proof.
  induction l as [|x l IH]; simpl; [by intros _ ?%elem_of_nil|].
  case_decide as Hx.
  { intros Hfix [->|He]%elem_of_cons Hn; [done | by apply IH]. }
  destruct (materialize db (rc ++ [x])) eqn:Hm.
  - intros Hfix. exfalso.
    destruct (pass_appends l (rc ++ [x])) as [added Ha].
    rewrite Ha in Hfix. apply (f_equal length) in Hfix.
    rewrite !length_app in Hfix. simpl in Hfix. lia.
  - intros Hfix [->|He]%elem_of_cons Hn; [done | by apply IH].
Qed.

Lemma passes_fixed n l rc :
  placed_by_pass db l rc = rc → placed_by_passes db n l rc = rc.
Proof. intros Hfix. induction n as [|n IH]; simpl; [done|]. by rewrite Hfix. Qed.

Lemma passes_distinct n l rc : NoDup rc → NoDup (placed_by_passes db n l rc).
Proof.
  revert rc. induction n as [|n IH]; intros rc Hnd; simpl; [done|].
  by apply IH, pass_distinct.
Qed.

Lemma passes_within n l rc x : x ∈ placed_by_passes db n l rc → x ∈ rc ∨ x ∈ l.
Proof.
  revert rc. induction n as [|n IH]; intros rc; simpl; [by left|].
  intros [Hx|?]%IH; [|by right]. by apply pass_within in Hx.
Qed.

Lemma passes_materializable n l rc :
  is_Some (materialize db rc) → is_Some (materialize db (placed_by_passes db n l rc)).
Proof.
  revert rc. induction n as [|n IH]; intros rc Hrc; simpl; [done|].
  by apply IH, pass_materializable.
Qed.

(** After [n] passes either [n] more entities are placed, or the passes have
    come to a halt with every trial failing. *)
Lemma passes_grow_or_halt n l rc :
  length rc + n ≤ length (placed_by_passes db n l rc) ∨
  (∀ e, e ∈ l → e ∉ placed_by_passes db n l rc →
        materialize db (placed_by_passes db n l rc ++ [e]) = None).
Proof.
  revert rc. induction n as [|n IH]; intros rc; simpl; [left; lia|].
  destruct (pass_appends l rc) as [added Ha].
  destruct added as [|a added].
  - rewrite app_nil_r in Ha. right. rewrite Ha, (passes_fixed n l rc Ha).
    intros e. by apply pass_stuck.
  - destruct (IH (placed_by_pass db l rc)) as [Hlen|Hhalt]; [left|by right].
    rewrite Ha, length_app in Hlen. simpl in Hlen. rewrite Ha. lia.
Qed.

(** The entity the loop after the resolver would report cannot be created
    after the placed ones. *)
Lemma resolver_leftover_fails l e :
  e ∈ l → e ∉ placed_by_passes db (length l) l [] →
  materialize db (placed_by_passes db (length l) l [] ++ [e]) = None.
Proof.
  intros He Hn.
  destruct (passes_grow_or_halt (length l) l []) as [Hlen|Hhalt]; [exfalso|by apply Hhalt].
  simpl in Hlen. apply Hn.
  assert (placed_by_passes db (length l) l [] ⊆+ l) as Hsub.
  { apply NoDup_submseteq; [apply passes_distinct; constructor|].
    intros x [[]%elem_of_nil|?]%passes_within. done. }
  apply submseteq_length_Permutation in Hsub; [|done]. by rewrite Hsub.
Qed.

End ResolverInvariants.

(** * What the plan computation can raise *)

Section Raises.
Context `{Backend}.

Lemma raises_ret {A} P (a : A) : raises P (ret a).
Proof. by intros w e w'. Qed.

Lemma raises_raise {A} (P : exn → Prop) e : P e → raises P (raise (A := A) e).
Proof. by intros He w e' w' [= <- _]. Qed.

Lemma raises_bind {A B} P (m : M A) (k : A → M B) :
  raises P m → (∀ a, raises P (k a)) → raises P (bind m k).
Proof.
  intros Hm Hk w e w'. unfold bind.
  destruct (m w) as [[a|e1] w1] eqn:Em.
  - apply Hk.
  - intros [= <- _]. by eapply Hm.
Qed.

Lemma raises_for_each {X} P (l : list X) (f : X → M unit) :
  (∀ x, raises P (f x)) → raises P (for_each l f).
Proof.
  intros Hf. induction l as [|x l IH]; simpl; [apply raises_ret|].
  by apply raises_bind.
Qed.

Lemma raises_map_m {X Y} P (f : X → M Y) (l : list X) :
  (∀ x, raises P (f x)) → raises P (map_m f l).
Proof.
  intros Hf. induction l as [|x l IH]; simpl; [apply raises_ret|].
  apply raises_bind; [done|]. intros y.
  apply raises_bind; [done|]. intros ys. apply raises_ret.
Qed.

Lemma raises_simulate_entities {A} (P : exn → Prop) l (body : M A) :
  P DatabaseError → raises P body → raises P (simulate_entities l body).
Proof.
  intros Hp Hb w e w' E.
  destruct (materialize (live w) l) as [db|] eqn:Hm.
  - rewrite (simulate_entities_ok _ _ _ _ Hm) in E. simpl in E.
    destruct (body _) as [r2 w2] eqn:Eb. simpl in E. injection E as -> _.
    by eapply Hb.
  - apply materialize_None in Hm as (pre & x & post & db & -> & Hpre & Hfail).
    rewrite (simulate_entities_fail _ _ _ _ _ _ Hpre Hfail) in E.
    by injection E as <- _.
Qed.

Lemma raises_sess_query_row q : raises server_error (sess_query_row q).
Proof.
  intros w e w'. unfold sess_query_row. destruct (fetchone _ _); [done|].
  intros [= <- _]. by right.
Qed.

Lemma raises_cachedmethod P key method :
  raises P method → raises P (cachedmethod key method).
Proof.
  intros Hm w e w'. unfold cachedmethod.
  destruct (cache w !! key); [done|].
  destruct (method w) as [[v|e1] w1] eqn:Em; [done|].
  intros [= <- _]. by eapply Hm.
Qed.

Lemma raises_get_identity_comparable e : raises server_error (get_identity_comparable e).
Proof.
  apply raises_cachedmethod, raises_simulate_entities;
    [by left | apply raises_sess_query_row].
Qed.

Lemma raises_get_definition_comparable e :
  raises server_error (get_definition_comparable e).
Proof.
  apply raises_cachedmethod, raises_simulate_entities;
    [by left | apply raises_sess_query_row].
Qed.

Lemma raises_is_equal_identity a b : raises server_error (is_equal_identity a b).
Proof.
  apply raises_bind; [apply raises_get_identity_comparable|]. intros ra.
  apply raises_bind; [apply raises_get_identity_comparable|]. intros rb.
  apply raises_ret.
Qed.

Lemma raises_is_equal_definition a b : raises server_error (is_equal_definition a b).
Proof.
  apply raises_bind; [apply raises_get_definition_comparable|]. intros ra.
  apply raises_bind; [apply raises_get_definition_comparable|]. intros rb.
  apply raises_ret.
Qed.

Lemma raises_get_required_migration_op self :
  raises server_error (get_required_migration_op self).
Proof.
  apply raises_bind; [by intros w e w'|]. intros l.
  apply raises_bind; [apply raises_map_m, raises_is_equal_definition|]. intros ids.
  apply raises_bind; [apply raises_map_m, raises_is_equal_identity|]. intros sigs.
  destruct (any ids); [apply raises_ret|]. destruct (any sigs); apply raises_ret.
Qed.

Lemma raises_diff_entity resolved local_entity :
  raises server_error (diff_entity resolved local_entity).
Proof.
  apply raises_bind.
  - apply raises_simulate_entities; [by left | apply raises_get_required_migration_op].
  - intros [op|]; [by intros w e w' | apply raises_ret].
Qed.

Lemma raises_matches_local db_entity entities :
  raises server_error (matches_local db_entity entities).
Proof.
  induction entities as [|x l IH]; simpl; [apply raises_ret|].
  apply raises_bind; [apply raises_is_equal_identity|].
  intros [|]; [apply raises_ret | apply IH].
Qed.

Lemma raises_find_drops entities observed :
  raises server_error (find_drops entities observed).
Proof.
  apply raises_for_each. intros sch. apply raises_for_each. intros cls.
  apply raises_bind; [by intros w e w'|]. intros l.
  apply raises_for_each. intros x.
  apply raises_bind; [apply raises_matches_local|].
  intros [|]; [apply raises_ret | by intros w e w'].
Qed.

Lemma report_unresolved_none entities resolved (w : World) :
  find (λ e, bool_decide (e ∉ resolved)) entities = None →
  report_unresolved entities resolved w = (Ok tt, w).
Proof.
  induction entities as [|e l IH]; simpl; [done|].
  destruct (decide (e ∉ resolved)) as [Hin|Hin].
  - by rewrite bool_decide_eq_true_2 by done.
  - rewrite bool_decide_eq_false_2 by done. apply IH.
Qed.

Lemma check_unique_raised groups (w : World) e w' :
  check_unique groups w = (Raise e, w') →
  ∃ ident g, (ident, g) ∈ groups ∧ e = DuplicateRegistration (duplicate_message ident).
Proof.
  induction groups as [|[k g] groups IH]; simpl; [done|].
  case_decide.
  - intros [= <- _]. exists k, g. split; [left|done].
  - intros (i' & g' & Hin & ->)%IH. exists i', g'. split; [by right|done].
Qed.

Lemma groupby_keys k g (l : list Entity) :
  (k, g) ∈ groupby l → k ∈ map identity l.
Proof.
  revert k g. induction l as [|x l IH]; intros k g; simpl.
  { by intros ?%elem_of_nil. }
  destruct (groupby l) as [|[k0 g0] gs] eqn:Eg.
  { intros [= -> ->]%list_elem_of_singleton. left. }
  case_decide as Hx.
  - intros [[= -> ->]|Hin]%elem_of_cons.
    + rewrite <- Hx. left.
    + right. apply (IH k g). by right.
  - intros [[= -> ->]|Hin]%elem_of_cons; [left|].
    right. by apply (IH k g).
Qed.

(** The resolver never raises: what it returns holds no entity twice, holds
    registered entities only, can be created in its order from the catalog
    the call started in, and the session and [upgrade_ops.ops] are as they
    were. *)
Theorem resolver_returns_a_placeable_order entities (w : World) :
  ∃ resolved w',
    resolve entities w = (Ok resolved, w') ∧
    NoDup resolved ∧
    (∀ x, x ∈ resolved → x ∈ entities) ∧
    is_Some (materialize (live w) resolved) ∧
    live w' = live w ∧ saves w' = saves w ∧ ops w' = ops w.
Proof.
  destruct (resolve_passes_run (length entities) entities [] w) as (w' & E & X).
  exists (placed_by_passes (live w) (length entities) entities []), w'.
  destruct (quiet_resolve_passes _ _ _ _ _ _ E) as [_ Hops].
  split_and!; [done| | | |by destruct X|by destruct X|done].
  - apply passes_distinct. constructor.
  - by intros x [[]%elem_of_nil|?]%passes_within.
  - apply passes_materializable. by eexists.
Qed.

(** [compare_registered_entities] raises nothing but the server's errors,
    [DuplicateRegistration] for an identity of the batch and
    [FailedToGenerateComparable] for an entity of the batch; in particular
    the [UnreachableException] of its source is never raised. *)
Theorem plan_errors_are_classified
    entities schemas exclude_schemas sqla_schemas (w : World) e w' :
  compare_registered_entities entities schemas exclude_schemas sqla_schemas w
  = (Raise e, w') →
  plan_error entities e ∧ e ≠ UnreachableException.
Proof.
  intros E.
  assert (plan_error entities e) as Hp; [|split; [done|]].
  2:{ destruct Hp as [[-> | ->]|[(? & _ & ->)|(? & _ & ->)]]; done. }
  destruct (check_unique (group_by entities) w) as [[[]|e0] w0] eqn:Eu.
  2:{ unfold compare_registered_entities, bind in E. rewrite Eu in E.
      injection E as <- _.
      apply check_unique_raised in Eu as (ident & g & Hin & ->).
      right. left. exists ident. split; [|done].
      apply groupby_keys in Hin.
      by rewrite (sort_by_identity_perm entities) in Hin. }
  set (observed := observed_schemas entities schemas exclude_schemas sqla_schemas).
  destruct (plan_body entities observed (plan_start w)) as [r w2] eqn:Eb.
  rewrite (compare_registered_entities_unfold _ _ _ _ _ _ _ ltac:(by rewrite Eu) Eb) in E.
  injection E as -> _.
  unfold plan_body in Eb. unfold bind at 1 in Eb.
  destruct (resolve_passes_run (length entities) entities [] (plan_start w))
    as (w3 & E3 & X3).
  unfold resolve in Eb. rewrite E3 in Eb.
  set (resolved := placed_by_passes _ _ _ _) in *.
  unfold bind at 1 in Eb.
  destruct (find (λ e, bool_decide (e ∉ resolved)) entities) as [entity|] eqn:Ef.
  - pose proof (report_unresolved_first entities resolved entity w3 Ef) as Hrep.
    apply find_some in Ef as [Hin Hb].
    apply list_elem_of_In in Hin. apply bool_decide_eq_true in Hb.
    rewrite (ext_live _ _ X3) in Hrep.
    assert (materialize (live (plan_start w)) (resolved ++ [entity]) = None) as Hfail
      by exact (resolver_leftover_fails _ entities entity Hin Hb).
    rewrite Hfail in Hrep.
    destruct (report_unresolved entities resolved w3) as [[[]|x] w4]; simpl in Hrep;
      [done|].
    injection Eb as <- _. injection Hrep as ->.
    right. right. by exists entity.
  - rewrite (report_unresolved_none _ _ _ Ef) in Eb.
    left.
    assert (raises server_error (
      let* _ := for_each resolved (diff_entity resolved) in
      find_drops entities observed)) as Hr.
    { apply raises_bind; [apply raises_for_each, raises_diff_entity|].
      intros _. apply raises_find_drops. }
    exact (Hr _ _ _ Eb).
Qed.

End Raises.

(** * Comparables and the cache, continued *)

Section CacheMore.
Context `{Backend}.

Lemma cachedmethod_hit key method (w : World) v :
  cache w !! key = Some v → cachedmethod key method w = (Ok v, w).
Proof. intros Hk. unfold cachedmethod. by rewrite Hk. Qed.

(** Once the two comparables of an entity have been computed, every later
    call is answered from the cache, in whatever world extends the one they
    were computed in, and leaves that world as it is: no call reaches the
    database. *)
Theorem comparables_are_computed_once e w v w1 d w2 w3 :
  get_identity_comparable e w = (Ok v, w1) →
  get_definition_comparable e w1 = (Ok d, w2) →
  extends w2 w3 →
  get_identity_comparable e w3 = (Ok v, w3) ∧
  get_definition_comparable e w3 = (Ok d, w3).
Proof.
  intros E1 E2 X3.
  destruct (get_identity_comparable_spec _ _ _ _ E1) as (_ & _ & Hv).
  destruct (get_definition_comparable_spec _ _ _ _ E2) as (X2 & _ & Hd).
  specialize (Hv v eq_refl). specialize (Hd d eq_refl).
  split; apply cachedmethod_hit.
  - eapply extends_lookup; [|exact Hv]. by etrans.
  - by eapply extends_lookup.
Qed.

Lemma simulated_query_keeps_cache l q (w : World) r w' :
  simulate_entities l (sess_query_row q) w = (r, w') → cache w' = cache w.
Proof.
  destruct (materialize (live w) l) as [db|] eqn:Hm.
  - rewrite (simulate_entities_ok _ _ _ _ Hm). simpl. unfold sess_query_row. simpl.
    destruct (fetchone db q); simpl; intros [= _ <-]; done.
  - apply materialize_None in Hm as (pre & x & post & db & -> & Hpre & Hfail).
    rewrite (simulate_entities_fail _ _ _ _ _ _ Hpre Hfail). by intros [= _ <-].
Qed.

(** A comparable that could not be computed is not remembered: the call
    raises the server's error, the cache and the session are as before, and
    the next call computes again. *)
Theorem failed_comparable_is_not_cached e (w : World) x w' :
  get_identity_comparable e w = (Raise x, w')
  ∨ get_definition_comparable e w = (Raise x, w') →
  server_error x ∧ cache w' = cache w ∧ live w' = live w ∧ saves w' = saves w.
Proof.
  intros E.
  assert (∃ key q, cachedmethod key (simulate_entities [e] (sess_query_row q)) w
                   = (Raise x, w')) as (key & q & Ec).
  { destruct E as [E|E]; eexists _, _; exact E. }
  clear E. split_and!.
  - revert Ec. apply raises_cachedmethod, raises_simulate_entities;
      [by left | apply raises_sess_query_row].
  - unfold cachedmethod in Ec. destruct (cache w !! key); [done|].
    destruct (simulate_entities _ _ w) as [[v|x1] w1] eqn:Es; [done|].
    injection Ec as _ <-. by eapply simulated_query_keeps_cache.
  - by destruct (cachedmethod_spec key _ w _ w'
      (quiet_simulate_entities [e] _ (quiet_sess_query_row q)) Ec) as ([? _ _ _ _ _] & _).
  - by destruct (cachedmethod_spec key _ w _ w'
      (quiet_simulate_entities [e] _ (quiet_sess_query_row q)) Ec) as ([_ ? _ _ _ _] & _).
Qed.

Lemma is_equal_identity_cached a b w r w' :
  is_equal_identity a b w = (Ok r, w') →
  ∃ ra rb, cached_identity w' a = Some ra ∧ cached_identity w' b = Some rb
           ∧ r = bool_decide (ra = rb).
Proof.
  unfold is_equal_identity, bind. intros E.
  destruct (get_identity_comparable a w) as [[ra|?] w1] eqn:Ea; [|done].
  destruct (get_identity_comparable b w1) as [[rb|?] w2] eqn:Eb; [|done].
  injection E as <- <-.
  destruct (get_identity_comparable_spec _ _ _ _ Ea) as (_ & _ & Ha).
  destruct (get_identity_comparable_spec _ _ _ _ Eb) as (X2 & _ & Hb).
  exists ra, rb. split_and!; [|by apply Hb|done].
  eapply extends_lookup; [done|]. by apply Ha.
Qed.

Lemma is_equal_identity_hit a b (w : World) ra rb :
  cached_identity w a = Some ra → cached_identity w b = Some rb →
  is_equal_identity a b w = (Ok (bool_decide (ra = rb)), w).
Proof.
  intros Ha Hb. unfold is_equal_identity, bind, get_identity_comparable.
  rewrite (cachedmethod_hit _ _ w ra) by done.
  by rewrite (cachedmethod_hit _ _ w rb) by done.
Qed.

(** The answer of [is_equal_identity] is the same with the two entities
    exchanged, an entity has the identity of itself, and once an answer has
    been given these further questions cost no call to the database. *)
Theorem equal_identity_is_symmetric_and_reflexive a b w r w' :
  is_equal_identity a b w = (Ok r, w') →
  is_equal_identity b a w' = (Ok r, w') ∧
  is_equal_identity a a w' = (Ok true, w') ∧
  is_equal_identity b b w' = (Ok true, w').
Proof.
  intros (ra & rb & Ha & Hb & ->)%is_equal_identity_cached.
  split_and!.
  - rewrite (is_equal_identity_hit b a w' rb ra) by done.
    do 2 f_equal. apply bool_decide_ext. split; congruence.
  - rewrite (is_equal_identity_hit a a w' ra ra) by done.
    by rewrite bool_decide_eq_true_2.
  - rewrite (is_equal_identity_hit b b w' rb rb) by done.
    by rewrite bool_decide_eq_true_2.
Qed.

End CacheMore.
